(** * QRSDetectorOffline: a shallow embedding and its properties

    The development follows [QRSDetectorOffline.py]: the signal
    conditioning stages of [detect_peaks], the peak finder [findpeaks] and
    the adaptive classifier [detect_qrs].

    Numbers.  The Python code computes on binary64 floats.  The functions
    below only add, subtract, multiply and compare them, so they are written
    over an interface [Float] that provides these operations together with
    the two order facts the proofs need (both hold of IEEE comparison, NaN
    included, and of exact arithmetic).  Concrete runs use the instance of
    exact rationals [Q_Float], on inputs for which every comparison made
    has the same outcome in binary64.

    Indices are integers ([Z]); lengths, the spacing and the integration
    window are naturals, as [range], [np.zeros] and [np.ones] require. *)

From Stdlib Require Import ZArith QArith Lia.
From stdpp Require Import base list sorting.

Close Scope Q_scope.
Open Scope nat_scope.

(** ** The numeric interface *)

Class Float := {
  num : Type;
  f0 : num;                       (* 0.0 *)
  f1 : num;                       (* 1 *)
  f1e_6 : num;                    (* the literal 1.e-6 of findpeaks *)
  fadd : num → num → num;
  fsub : num → num → num;
  fmul : num → num → num;
  fdiv : num → num → option num;  (* a / b, None for ZeroDivisionError *)
  f0_5 : num;                     (* the literal 0.5 of bandpass_filter *)
  fgt : num → num → bool;         (* a > b *)
  feq : num → num → bool;         (* a == b *)
  fgt_asym : ∀ a b, fgt a b = true → fgt b a = false;
  fgt_feq : ∀ a b, feq a b = true → fgt a b = false;
}.

(** Exact rationals. *)
Definition Qgtb (a b : Q) : bool := negb (Qle_bool a b).

Lemma Qgtb_lt a b : Qgtb a b = true ↔ (b < a)%Q.
Proof.
  unfold Qgtb. rewrite negb_true_iff, <- not_true_iff_false, Qle_bool_iff.
  split; [apply Qnot_le_lt | apply Qlt_not_le].
Qed.

Lemma Qgtb_asym a b : Qgtb a b = true → Qgtb b a = false.
Proof.
  rewrite Qgtb_lt. intros Hlt. apply not_true_iff_false.
  rewrite Qgtb_lt. intros Hlt'. exact (Qlt_irrefl _ (Qlt_trans _ _ _ Hlt Hlt')).
Qed.

Lemma Qgtb_eq a b : Qeq_bool a b = true → Qgtb a b = false.
Proof.
  intros Heq%Qeq_bool_iff. apply not_true_iff_false.
  rewrite Qgtb_lt, Heq. apply Qlt_irrefl.
Qed.

#[export] Instance Q_Float : Float := {|
  num := Q;
  f0 := 0%Q;
  f1 := 1%Q;
  f1e_6 := (1 # 1000000)%Q;
  fadd := Qplus;
  fsub := Qminus;
  fmul := Qmult;
  fdiv := λ a b, if Qeq_bool b 0 then None else Some (a / b)%Q;
  f0_5 := (1 # 2)%Q;
  fgt := Qgtb;
  feq := Qeq_bool;
  fgt_asym := Qgtb_asym;
  fgt_feq := Qgtb_eq;
|}.

(** ** Errors raised by the Python code *)

Inductive exn : Type :=
  | IndexError           (* indexing out of bounds *)
  | ValueError           (* np.convolve on an empty operand; scipy's own checks *)
  | ZeroDivisionError.   (* float division by 0.0 *)

Definition result (A : Type) : Type := exn + A.

(** ** Configuration and state of the detector ([__init__]) *)

Record Config `{Float} := {
  signal_frequency : num;
  filter_lowcut : num;
  filter_highcut : num;
  filter_order : nat;
  integration_window : nat;
  findpeaks_limit : num;
  findpeaks_spacing : nat;
  refractory_period : Z;
  signal_peak_filtering_factor : num;
  noise_peak_filtering_factor : num;
  signal_noise_diff_weight : num;
}.

(** The fields that [detect_qrs] reads and writes. *)
Record Detector `{Float} := {
  qrs_peaks_indices : list Z;
  noise_peaks_indices : list Z;
  signal_peak_value : num;
  noise_peak_value : num;
  threshold_value : num;
}.

Section Classifier.
Context `{Float}.
Variable cfg : Config.

(** State set up by [__init__] (lines 64-69). *)
Definition init : Detector := {|
  qrs_peaks_indices := [];
  noise_peaks_indices := [];
  signal_peak_value := f0;
  noise_peak_value := f0;
  threshold_value := f0;
|}.

(** [self.qrs_peaks_indices[-1]], with 0 on [IndexError]. *)
Definition last_qrs_index (st : Detector) : Z :=
  match last (qrs_peaks_indices st) with
  | Some i => i
  | None => 0%Z
  end.

(** The guard of line 137. *)
Definition eligible (st : Detector) (i : Z) : bool :=
  (refractory_period cfg <? i - last_qrs_index st)%Z
  || (length (qrs_peaks_indices st) =? 0).

(** Line 154: the threshold recomputed from the two levels. *)
Definition update_threshold (st : Detector) : Detector := {|
  qrs_peaks_indices := qrs_peaks_indices st;
  noise_peaks_indices := noise_peaks_indices st;
  signal_peak_value := signal_peak_value st;
  noise_peak_value := noise_peak_value st;
  threshold_value :=
    fadd (noise_peak_value st)
         (fmul (signal_noise_diff_weight cfg)
               (fsub (signal_peak_value st) (noise_peak_value st)));
|}.

(** Lines 141-145. *)
Definition accept_qrs (st : Detector) (i : Z) (v : num) : Detector := {|
  qrs_peaks_indices := qrs_peaks_indices st ++ [i];
  noise_peaks_indices := noise_peaks_indices st;
  signal_peak_value :=
    fadd (fmul (signal_peak_filtering_factor cfg) v)
         (fmul (fsub f1 (signal_peak_filtering_factor cfg)) (signal_peak_value st));
  noise_peak_value := noise_peak_value st;
  threshold_value := threshold_value st;
|}.

(** Lines 147-151. *)
Definition record_noise (st : Detector) (i : Z) (v : num) : Detector := {|
  qrs_peaks_indices := qrs_peaks_indices st;
  noise_peaks_indices := noise_peaks_indices st ++ [i];
  signal_peak_value := signal_peak_value st;
  noise_peak_value :=
    fadd (fmul (noise_peak_filtering_factor cfg) v)
         (fmul (fsub f1 (noise_peak_filtering_factor cfg)) (noise_peak_value st));
  threshold_value := threshold_value st;
|}.

(** One iteration of the loop of [detect_qrs] (lines 131-155). *)
Definition detect_qrs_step (st : Detector) (c : Z * num) : Detector :=
  let '(i, v) := c in
  if eligible st i then
    update_threshold
      (if fgt v (threshold_value st) then accept_qrs st i v
       else record_noise st i v)
  else st.

(** [detect_qrs]: the loop over [zip(indices, values)], from the state
    the object is in. *)
Definition detect_qrs (st : Detector)
    (detected_peaks_indices : list Z) (detected_peaks_values : list num) : Detector :=
  fold_left detect_qrs_step (zip detected_peaks_indices detected_peaks_values) st.

(** The indices of the candidates that [zip] pairs up. *)
Definition candidate_indices (detected_peaks_indices : list Z)
    (detected_peaks_values : list num) : list Z :=
  (zip detected_peaks_indices detected_peaks_values).*1.

(** What one iteration did with its candidate; the code keeps no such
    record, it is read off the two tests of the step. *)
Inductive verdict : Type := Qrs | Noise | Skipped.

Definition verdict_of (st : Detector) (c : Z * num) : verdict :=
  if eligible st c.1 then
    if fgt c.2 (threshold_value st) then Qrs else Noise
  else Skipped.

(** The verdicts of a run, candidate by candidate. *)
Fixpoint verdicts (st : Detector) (cs : list (Z * num)) : list verdict :=
  match cs with
  | [] => []
  | c :: cs' => verdict_of st c :: verdicts (detect_qrs_step st c) cs'
  end.

Definition verdict_eqb (a b : verdict) : bool :=
  match a, b with
  | Qrs, Qrs | Noise, Noise | Skipped, Skipped => true
  | _, _ => false
  end.

(** Indices of the candidates that received verdict [w]. *)
Fixpoint indices_with (w : verdict) (vs : list verdict) (cs : list (Z * num)) : list Z :=
  match vs, cs with
  | v :: vs', c :: cs' =>
      if verdict_eqb v w then c.1 :: indices_with w vs' cs'
      else indices_with w vs' cs'
  | _, _ => []
  end.

(** Candidates skipped by the refractory rule during a run. *)
Definition skipped (st : Detector) (cs : list (Z * num)) : list Z :=
  indices_with Skipped (verdicts st cs) cs.

End Classifier.

(** ** The peak finder ([findpeaks], lines 177-207) *)

Section PeakFinder.
Context `{Float}.

(** [x[lo:hi] = c] for [lo <= hi]: the slice is clipped to the array. *)
Definition fill (lo hi : nat) (c : num) (x : list num) : list num :=
  list_inserts lo (replicate (hi `min` length x - lo) c) x.

(** Start of the slice [x[-k:]] in an array of [n] elements: [-0] is [0],
    so [x[-0:]] is the whole array. *)
Definition neg_start (k n : nat) : nat :=
  if k =? 0 then 0 else n - k.

(** [x[start:stop]]. *)
Definition slice (start stop : nat) (x : list num) : list num :=
  take (stop - start) (drop start x).

(** Lines 188-191: the array padded by [spacing] sentinels on each side. *)
Definition padded (data : list num) (d0 dl : num) (spacing : nat) : list num :=
  let len := length data in
  let x := replicate (len + 2 * spacing) f0 in
  let x := fill 0 spacing (fsub d0 f1e_6) x in
  let x := fill (neg_start spacing (length x)) (length x) (fsub dl f1e_6) x in
  list_inserts spacing data x.

(** One iteration of the loop of lines 194-201. *)
Definition narrow (x : list num) (len spacing : nat)
    (peak_candidate : list bool) (s : nat) : list bool :=
  let start := spacing - s - 1 in
  let h_b := slice start (start + len) x in
  let start := spacing in
  let h_c := slice start (start + len) x in
  let start := spacing + s + 1 in
  let h_a := slice start (start + len) x in
  zip_with andb peak_candidate
    (zip_with andb (zip_with fgt h_c h_b) (zip_with fgt h_c h_a)).

(** [np.argwhere] on a one-dimensional mask, flattened. *)
Fixpoint argwhere_from (k : nat) (mask : list bool) : list nat :=
  match mask with
  | [] => []
  | b :: mask' =>
      if b then k :: argwhere_from (S k) mask' else argwhere_from (S k) mask'
  end.

Definition argwhere (mask : list bool) : list nat := argwhere_from 0 mask.

(** [data[ind]] for an index array: [IndexError] when out of bounds. *)
Definition take_at (data : list num) (ind : list nat) : result (list num) :=
  match mapM (λ i, data !! i) ind with
  | Some vs => inr vs
  | None => inl IndexError
  end.

(** [ind[mask]] for a boolean mask of the same shape. *)
Fixpoint select (mask : list bool) (ind : list nat) : list nat :=
  match mask, ind with
  | b :: mask', i :: ind' => if b then i :: select mask' ind' else select mask' ind'
  | _, _ => []
  end.

Definition findpeaks (data : list num) (spacing : nat) (limit : option num)
    : result (list nat) :=
  let len := length data in
  match head data, last data with
  | Some d0, Some dl =>
      let x := padded data d0 dl spacing in
      let peak_candidate := replicate len true in
      let peak_candidate :=
        fold_left (narrow x len spacing) (seq 0 spacing) peak_candidate in
      let ind := argwhere peak_candidate in
      match limit with
      | Some lim =>
          match take_at data ind with
          | inr vs => inr (select (map (λ v, fgt v lim) vs) ind)
          | inl e => inl e
          end
      | None => inr ind
      end
  | _, _ => inl IndexError
  end.

(** *** The peak finder in the words of the specification *)

(** The sample at signed position [k]; outside the sequence, the nearest
    boundary value minus the epsilon. *)
Definition neighbour (data : list num) (d0 dl : num) (k : Z) : num :=
  if (k <? 0)%Z then fsub d0 f1e_6
  else match data !! Z.to_nat k with
       | Some d => d
       | None => fsub dl f1e_6
       end.

(** [data[i]], of value [di], is strictly greater than the samples [s+1]
    places before and after it; for every offset [s] below [spacing], in
    [strict_local_max]. *)
Definition window_test (data : list num) (d0 dl : num)
    (i : nat) (di : num) (s : nat) : bool :=
  fgt di (neighbour data d0 dl (Z.of_nat i - (Z.of_nat s + 1))%Z)
  && fgt di (neighbour data d0 dl (Z.of_nat i + (Z.of_nat s + 1))%Z).

Definition strict_local_max (data : list num) (d0 dl : num)
    (spacing : nat) (i : nat) : bool :=
  match data !! i with
  | Some di => forallb (window_test data d0 dl i di) (seq 0 spacing)
  | None => false
  end.

Definition above_limit (data : list num) (limit : option num) (i : nat) : bool :=
  match limit, data !! i with
  | Some lim, Some di => fgt di lim
  | Some _, None => false
  | None, _ => true
  end.

(** The ascending list of the indices that are strict local maxima and
    exceed the limit. *)
Definition spec_peaks (data : list num) (spacing : nat) (limit : option num)
    : list nat :=
  match head data, last data with
  | Some d0, Some dl =>
      List.filter
        (λ i, strict_local_max data d0 dl spacing i && above_limit data limit i)
        (seq 0 (length data))
  | _, _ => []
  end.

End PeakFinder.

(** ** Signal conditioning ([detect_peaks], lines 92-120) *)

Section Conditioner.
Context `{Float}.

(** [np.ediff1d]: [ary[1:] - ary[:-1]]. *)
Definition ediff1d (ary : list num) : list num :=
  zip_with fsub (drop 1 ary) (take (length ary - 1) ary).

(** [signal ** 2], element by element. *)
Definition square (signal : list num) : list num :=
  map (λ d, fmul d d) signal.

(** [np.ones]. *)
Definition ones (n : nat) : list num := replicate n f1.

(** Sum of two sequences, the shorter one extended by nothing. *)
Fixpoint add_seqs (p q : list num) : list num :=
  match p, q with
  | [], _ => q
  | _, [] => p
  | a :: p', b :: q' => fadd a b :: add_seqs p' q'
  end.

(** Full discrete convolution: entry [k] collects the products
    [a[j] * v[k - j]]. *)
Fixpoint full_convolution (a v : list num) : list num :=
  match a with
  | [] => []
  | x :: a' => add_seqs (map (fmul x) v) (f0 :: full_convolution a' v)
  end.

(** [np.convolve(a, v)] in its default mode; both operands must be
    non-empty. *)
Definition convolve (a v : list num) : result (list num) :=
  match a, v with
  | [], _ | _, [] => inl ValueError
  | _, _ => inr (full_convolution a v)
  end.

(** The two scipy routines, taken as given. *)
Variable butter : nat → num → num → result (list num * list num).
Variable lfilter : list num → list num → list num → result (list num).

(** [bandpass_filter] (lines 159-175). *)
Definition bandpass_filter (data : list num) (lowcut highcut signal_freq : num)
    (order : nat) : result (list num) :=
  let nyquist_freq := fmul f0_5 signal_freq in
  match fdiv lowcut nyquist_freq, fdiv highcut nyquist_freq with
  | Some low, Some high =>
      match butter order low high with
      | inr (b, a) => lfilter b a data
      | inl e => inl e
      end
  | _, _ => inl ZeroDivisionError
  end.

(** The fields [detect_peaks] assigns. *)
Record Peaks := {
  filtered_signal : list num;
  differentiated_signal : list num;
  squared_signal : list num;
  integrated_signal : list num;
  detected_peaks_indices : list nat;
  detected_peaks_values : list num;
}.

(** Lines 107-120, from the filtered signal on. *)
Definition condition (cfg : Config) (filtered : list num) : result Peaks :=
  let differentiated := ediff1d filtered in
  let squared := square differentiated in
  match convolve squared (ones (integration_window cfg)) with
  | inr integrated =>
      match findpeaks integrated (findpeaks_spacing cfg) (Some (findpeaks_limit cfg)) with
      | inr ind =>
          match take_at integrated ind with
          | inr vals =>
              inr {| filtered_signal := filtered;
                     differentiated_signal := differentiated;
                     squared_signal := squared;
                     integrated_signal := integrated;
                     detected_peaks_indices := ind;
                     detected_peaks_values := vals |}
          | inl e => inl e
          end
      | inl e => inl e
      end
  | inl e => inl e
  end.

(** [detect_peaks] on the amplitude column of the loaded data. *)
Definition detect_peaks (cfg : Config) (ecg_measurements : list num) : result Peaks :=
  match bandpass_filter ecg_measurements (filter_lowcut cfg) (filter_highcut cfg)
          (signal_frequency cfg) (filter_order cfg) with
  | inr filtered => condition cfg filtered
  | inl e => inl e
  end.

End Conditioner.

(** ** The configuration of [__init__], over the rationals *)

Definition default_config : @Config Q_Float := {|
  signal_frequency := 250%Q;
  filter_lowcut := 0%Q;
  filter_highcut := 15%Q;
  filter_order := 1;
  integration_window := 15;
  findpeaks_limit := (35 # 100)%Q;
  findpeaks_spacing := 50;
  refractory_period := 120%Z;
  signal_peak_filtering_factor := (125 # 1000)%Q;
  noise_peak_filtering_factor := (125 # 1000)%Q;
  signal_noise_diff_weight := (25 # 100)%Q;
|}.

(** The state after index 10, of value 1, has been accepted. *)
Definition after_one_qrs : @Detector Q_Float := {|
  qrs_peaks_indices := [10%Z];
  noise_peaks_indices := [];
  signal_peak_value := (125 # 1000)%Q;
  noise_peak_value := 0%Q;
  threshold_value := (3125 # 100000)%Q;
|}.

(** The filter with coefficients [b = [1]], [a = [1]], which [lfilter]
    applies as the identity; it stands for scipy in concrete runs. *)
Definition unit_butter (order : nat) (low high : Q) : result (list Q * list Q) :=
  inr ([1%Q], [1%Q]).

Definition unit_lfilter (b a data : list Q) : result (list Q) := inr data.

(** ** Sequences with a minimum gap *)

(** Each element exceeds its predecessor by more than [R]. *)
Definition gapped (R : Z) (l : list Z) : Prop :=
  ∀ k q q', l !! k = Some q → l !! S k = Some q' → (R < q' - q)%Z.

(** ** The detection flow of [__init__] (lines 64-75) *)

Section Facade.
Context `{Float}.
Variable butter : nat → num → num → result (list num * list num).
Variable lfilter : list num → list num → list num → result (list num).

(** The constructor, from the amplitude column [ecg_data[:, 1]] of the
    loaded data on: [detect_peaks], then [detect_qrs] on the peaks found,
    from the initial state.  An error of [detect_peaks] leaves no object. *)
Definition QRSDetectorOffline (cfg : Config) (ecg_measurements : list num)
    : result (Peaks * Detector) :=
  match detect_peaks butter lfilter cfg ecg_measurements with
  | inr p =>
      inr (p, detect_qrs cfg init (Z.of_nat <$> detected_peaks_indices p)
                (detected_peaks_values p))
  | inl e => inl e
  end.

End Facade.

(** ** The loaded data and [detect_peaks] in full (lines 92-120) *)

(** An array of at most two dimensions, as [np.loadtxt] returns it: a single
    number, one row or one column of numbers, or a table of [ncols]
    columns. *)
Inductive ndarray `{Float} : Type :=
  | Array0 (value : num)
  | Array1 (values : list num)
  | Array2 (ncols : nat) (rows : list (list num)).

(** Every row of a table has [ncols] entries. *)
Definition well_formed `{Float} (a : ndarray) : Prop :=
  match a with
  | Array2 ncols rows => Forall (λ row, length row = ncols) rows
  | _ => True
  end.

(** The array has two dimensions and a column of index 1. *)
Definition has_second_column `{Float} (a : ndarray) : Prop :=
  match a with
  | Array2 ncols _ => 2 ≤ ncols
  | _ => False
  end.

(** [ecg_data[:, 1]] (line 99): two indices need two dimensions, and
    index 1 a second column. *)
Definition amplitude_column `{Float} (ecg_data : ndarray) : result (list num) :=
  match ecg_data with
  | Array0 _ | Array1 _ => inl IndexError
  | Array2 ncols rows =>
      if ncols <? 2 then inl IndexError
      else match mapM (λ row : list num, row !! 1) rows with
           | Some column => inr column
           | None => inl IndexError
           end
  end.

Section Loaded.
Context `{Float}.
Variable butter : nat → num → num → result (list num * list num).
Variable lfilter : list num → list num → list num → result (list num).

(** [detect_peaks] from the loaded array on: line 99, then the stages of
    [detect_peaks] above. *)
Definition detect_peaks_of_array (cfg : Config) (ecg_data : ndarray) : result Peaks :=
  match amplitude_column ecg_data with
  | inr ecg_measurements => detect_peaks butter lfilter cfg ecg_measurements
  | inl e => inl e
  end.

End Loaded.

(** Sixteen samples alternating between 0 and 1: fifteen unit slopes, which
    the integration window of 15 sums to one hump with its top at index 14. *)
Definition pulse_signal : list Q :=
  [0; 1; 0; 1; 0; 1; 0; 1; 0; 1; 0; 1; 0; 1; 0; 1]%Q.

(** The threshold agrees with the two levels, as line 154 leaves it. *)
Definition threshold_consistent `{Float} (cfg : Config) (st : Detector) : Prop :=
  threshold_value st
  = fadd (noise_peak_value st)
         (fmul (signal_noise_diff_weight cfg)
               (fsub (signal_peak_value st) (noise_peak_value st))).

(** * Properties *)

(** ** The classifier, step by step *)

Section ClassifierFacts.
Context `{Float}.
Variable cfg : Config.

Lemma last_qrs_index_last (st : Detector) (q : Z) :
  last (qrs_peaks_indices st) = Some q → last_qrs_index st = q.
Proof. unfold last_qrs_index. by intros ->. Qed.

Lemma eligible_after_qrs (st : Detector) (q i : Z) :
  last (qrs_peaks_indices st) = Some q →
  eligible cfg st i = (refractory_period cfg <? i - q)%Z.
Proof.
  intros Hq. unfold eligible. rewrite (last_qrs_index_last _ _ Hq).
  destruct (qrs_peaks_indices st) as [|q0 l]; [done|].
  simpl. apply orb_false_r.
Qed.

Lemma eligible_no_qrs (st : Detector) (i : Z) :
  qrs_peaks_indices st = [] → eligible cfg st i = true.
Proof. intros Hq. unfold eligible. rewrite Hq. apply orb_true_r. Qed.

Lemma step_skipped (st : Detector) (c : Z * num) :
  verdict_of cfg st c = Skipped → detect_qrs_step cfg st c = st.
Proof.
  destruct c as [i v]. unfold verdict_of, detect_qrs_step. simpl.
  destruct (eligible cfg st i); [|done].
  by destruct (fgt v (threshold_value st)).
Qed.

Lemma step_qrs (st : Detector) (c : Z * num) :
  verdict_of cfg st c = Qrs →
  detect_qrs_step cfg st c = update_threshold cfg (accept_qrs cfg st c.1 c.2).
Proof.
  destruct c as [i v]. unfold verdict_of, detect_qrs_step. simpl.
  destruct (eligible cfg st i); [|done].
  by destruct (fgt v (threshold_value st)).
Qed.

Lemma step_noise (st : Detector) (c : Z * num) :
  verdict_of cfg st c = Noise →
  detect_qrs_step cfg st c = update_threshold cfg (record_noise cfg st c.1 c.2).
Proof.
  destruct c as [i v]. unfold verdict_of, detect_qrs_step. simpl.
  destruct (eligible cfg st i); [|done].
  by destruct (fgt v (threshold_value st)).
Qed.

(** The two index sequences after one step, by verdict. *)
Lemma step_outputs (st : Detector) (c : Z * num) :
  let st' := detect_qrs_step cfg st c in
  match verdict_of cfg st c with
  | Qrs => qrs_peaks_indices st' = qrs_peaks_indices st ++ [c.1]
           ∧ noise_peaks_indices st' = noise_peaks_indices st
  | Noise => qrs_peaks_indices st' = qrs_peaks_indices st
             ∧ noise_peaks_indices st' = noise_peaks_indices st ++ [c.1]
  | Skipped => st' = st
  end.
Proof.
  simpl. destruct (verdict_of cfg st c) eqn:Hv.
  - by rewrite (step_qrs _ _ Hv).
  - by rewrite (step_noise _ _ Hv).
  - by apply step_skipped.
Qed.

Lemma length_verdicts (st : Detector) (cs : list (Z * num)) :
  length (verdicts cfg st cs) = length cs.
Proof. revert st. induction cs as [|c cs IH]; intros st; simpl; [done|]. by rewrite IH. Qed.

(** The outputs of a run are the candidates with verdict [Qrs] and [Noise],
    in order, after what the state held before. *)
Lemma run_outputs (cs : list (Z * num)) (st : Detector) :
  let st' := fold_left (detect_qrs_step cfg) cs st in
  qrs_peaks_indices st'
    = qrs_peaks_indices st ++ indices_with Qrs (verdicts cfg st cs) cs
  ∧ noise_peaks_indices st'
    = noise_peaks_indices st ++ indices_with Noise (verdicts cfg st cs) cs.
Proof.
  revert st. induction cs as [|c cs IH]; intros st; simpl.
  - by rewrite !app_nil_r.
  - destruct (IH (detect_qrs_step cfg st c)) as [Hq Hn]. simpl in Hq, Hn.
    rewrite Hq, Hn. pose proof (step_outputs st c) as Hs. simpl in Hs.
    destruct (verdict_of cfg st c); simpl.
    + destruct Hs as [-> ->]. by rewrite <- app_assoc.
    + destruct Hs as [-> ->]. by rewrite <- app_assoc.
    + by rewrite Hs.
Qed.

Lemma indices_with_sublist (w : verdict) (vs : list verdict) (cs : list (Z * num)) :
  indices_with w vs cs `sublist_of` cs.*1.
Proof.
  revert cs. induction vs as [|v vs IH]; intros [|c cs]; simpl;
    try apply sublist_nil_l.
  destruct (verdict_eqb v w); [apply sublist_skip | apply sublist_cons]; apply IH.
Qed.

Lemma indices_with_perm (vs : list verdict) (cs : list (Z * num)) :
  length vs = length cs →
  indices_with Qrs vs cs ++ indices_with Noise vs cs ++ indices_with Skipped vs cs
    ≡ₚ cs.*1.
Proof.
  revert cs. induction vs as [|v vs IH]; intros [|c cs] Hlen; simplify_eq/=; [done|].
  specialize (IH cs ltac:(done)).
  destruct v; simpl.
  - by rewrite IH.
  - rewrite <- Permutation_middle. by rewrite IH.
  - rewrite app_assoc, <- Permutation_middle, <- app_assoc. by rewrite IH.
Qed.

End ClassifierFacts.

(** ** Gapped sequences and sorted candidates *)

Lemma gapped_nil (R : Z) : gapped R [].
Proof. intros k q q' Hk. by rewrite lookup_nil in Hk. Qed.

Lemma gapped_snoc (R : Z) (l : list Z) (i : Z) :
  gapped R l → (∀ q, last l = Some q → (R < i - q)%Z) → gapped R (l ++ [i]).
Proof.
  intros Hl Hi k q q' Hk HSk.
  destruct (decide (S k < length l)) as [Hlt|Hge].
  - rewrite lookup_app_l in Hk by lia. rewrite lookup_app_l in HSk by lia. eauto.
  - pose proof (lookup_lt_Some _ _ _ HSk) as Hb. rewrite length_app in Hb. simpl in Hb.
    assert (S k = length l) as Hk' by lia.
    rewrite lookup_app_r in HSk by lia.
    replace (S k - length l) with 0 in HSk by lia. simplify_eq/=.
    rewrite lookup_app_l in Hk by lia.
    apply Hi. rewrite last_lookup. by replace (pred (length l)) with k by lia.
Qed.

Lemma gapped_pairwise (R : Z) (l : list Z) :
  (0 ≤ R)%Z → gapped R l →
  ∀ b a qa qb, a < b → l !! a = Some qa → l !! b = Some qb → (R < qb - qa)%Z.
Proof.
  intros HR Hl. induction b as [|b IH]; intros a qa qb Hab Ha Hb; [lia|].
  destruct (decide (a = b)) as [->|Hne]; [by eapply Hl|].
  destruct (lookup_lt_is_Some_2 l b) as [qm Hm].
  { apply lookup_lt_Some in Hb. lia. }
  pose proof (IH a qa qm ltac:(lia) Ha Hm).
  pose proof (Hl b qm qb Hm Hb). lia.
Qed.

Lemma sorted_lt_NoDup (l : list Z) : StronglySorted Z.lt l → NoDup l.
Proof.
  induction 1 as [|x l Hs IH Hx]; constructor; [|done].
  intros Hin. rewrite Forall_forall in Hx. specialize (Hx x Hin). lia.
Qed.

Lemma sublist_sorted_lt (l k : list Z) :
  l `sublist_of` k → StronglySorted Z.lt k → StronglySorted Z.lt l.
Proof.
  induction 1 as [|x l k Hsub IH|x l k Hsub IH]; intros Hk; [done| |].
  - apply StronglySorted_inv in Hk as [Hk Hx]. constructor; [by apply IH|].
    eapply Forall_forall. intros y Hy. rewrite Forall_forall in Hx.
    apply Hx. by eapply elem_of_sublist.
  - apply StronglySorted_inv in Hk as [Hk _]. by apply IH.
Qed.

Lemma candidate_indices_sublist `{Float} (idxs : list Z) (vals : list num) :
  candidate_indices idxs vals `sublist_of` idxs.
Proof.
  unfold candidate_indices. revert vals.
  induction idxs as [|i idxs IH]; intros [|v vals]; simpl;
    try apply sublist_nil_l.
  apply sublist_skip, IH.
Qed.

Section Runs.
Context `{Float}.
Variable cfg : Config.

Lemma verdict_qrs_eligible (st : Detector) (c : Z * num) :
  verdict_of cfg st c = Qrs → eligible cfg st c.1 = true.
Proof. unfold verdict_of. by destruct (eligible cfg st c.1). Qed.

Lemma step_gapped (st : Detector) (c : Z * num) :
  gapped (refractory_period cfg) (qrs_peaks_indices st) →
  gapped (refractory_period cfg) (qrs_peaks_indices (detect_qrs_step cfg st c)).
Proof.
  intros Hg. pose proof (step_outputs cfg st c) as Hs. simpl in Hs.
  destruct (verdict_of cfg st c) eqn:Hv.
  - destruct Hs as [-> _]. apply gapped_snoc; [done|].
    intros q Hq. apply verdict_qrs_eligible in Hv.
    rewrite (eligible_after_qrs cfg st q _ Hq) in Hv. lia.
  - by destruct Hs as [-> _].
  - by rewrite Hs.
Qed.

Lemma run_gapped (cs : list (Z * num)) (st : Detector) :
  gapped (refractory_period cfg) (qrs_peaks_indices st) →
  gapped (refractory_period cfg)
    (qrs_peaks_indices (fold_left (detect_qrs_step cfg) cs st)).
Proof.
  revert st. induction cs as [|c cs IH]; intros st Hg; simpl; [done|].
  by apply IH, step_gapped.
Qed.

(** The three groups of a run from the initial state. *)
Lemma run_partition (idxs : list Z) (vals : list num) :
  qrs_peaks_indices (detect_qrs cfg init idxs vals)
  ++ noise_peaks_indices (detect_qrs cfg init idxs vals)
  ++ skipped cfg init (zip idxs vals)
  ≡ₚ candidate_indices idxs vals.
Proof.
  unfold detect_qrs, skipped, candidate_indices.
  destruct (run_outputs cfg (zip idxs vals) init) as [Hq Hn].
  simpl in Hq, Hn. rewrite Hq, Hn.
  apply indices_with_perm, length_verdicts.
Qed.

End Runs.

(** ** The classifier: statements about [detect_qrs] *)

(** C1.  In the QRS sequence that [detect_qrs] produces from the initial
    state, for any candidate sequence, each index exceeds the one accepted
    before it by more than [refractory_period], any two indices at distinct
    positions differ by more than [refractory_period] (the first two
    included), and once a QRS has been accepted a candidate passes the guard
    exactly when its index minus the last accepted index exceeds
    [refractory_period]. *)
Theorem qrs_indices_refractory_apart `{Float} (cfg : Config)
    (idxs : list Z) (vals : list num) :
  (∀ k q q',
      qrs_peaks_indices (detect_qrs cfg init idxs vals) !! k = Some q →
      qrs_peaks_indices (detect_qrs cfg init idxs vals) !! S k = Some q' →
      (refractory_period cfg < q' - q)%Z)
  ∧ (∀ a b qa qb, a ≠ b →
      qrs_peaks_indices (detect_qrs cfg init idxs vals) !! a = Some qa →
      qrs_peaks_indices (detect_qrs cfg init idxs vals) !! b = Some qb →
      (refractory_period cfg < Z.abs (qb - qa))%Z)
  ∧ (∀ st q i, last (qrs_peaks_indices st) = Some q →
      (eligible cfg st i = true ↔ (refractory_period cfg < i - q)%Z)).
Proof.
  assert (gapped (refractory_period cfg)
            (qrs_peaks_indices (detect_qrs cfg init idxs vals))) as Hg.
  { apply run_gapped, gapped_nil. }
  split; [exact Hg|]. split.
  - intros a b qa qb Hab Ha Hb.
    destruct (Z_lt_le_dec (refractory_period cfg) 0) as [Hneg|Hpos]; [lia|].
    destruct (decide (a < b)) as [Hlt|Hge].
    + pose proof (gapped_pairwise _ _ Hpos Hg b a qa qb Hlt Ha Hb). lia.
    + pose proof (gapped_pairwise _ _ Hpos Hg a b qb qa ltac:(lia) Hb Ha). lia.
  - intros st q i Hq. rewrite (eligible_after_qrs cfg st q i Hq).
    apply Z.ltb_lt.
Qed.

Lemma qrs_indices_refractory_apart_witness :
  qrs_peaks_indices
    (detect_qrs default_config init [10; 20; 200; 400]%Z [1; 1; 1; 1]%Q)
    = [10; 200; 400]%Z
  ∧ (120 < 400 - 200)%Z ∧ (120 < Z.abs (400 - 10))%Z.
Proof.
  destruct (qrs_indices_refractory_apart default_config
              [10; 20; 200; 400]%Z [1; 1; 1; 1]%Q) as (Hc & Hp & _).
  split; [reflexivity|]. split.
  - apply (Hc 1 200%Z 400%Z); reflexivity.
  - apply (Hp 0 2 10%Z 400%Z); [lia | reflexivity | reflexivity].
Defined.

Section SkippedFacts.
Context `{Float}.
Variable cfg : Config.

Lemma skipped_cons (st : Detector) (c : Z * num) (cs : list (Z * num)) :
  skipped cfg st (c :: cs)
  = match verdict_of cfg st c with
    | Skipped => c.1 :: skipped cfg (detect_qrs_step cfg st c) cs
    | _ => skipped cfg (detect_qrs_step cfg st c) cs
    end.
Proof. unfold skipped. simpl. by destruct (verdict_of cfg st c). Qed.

(** A candidate is skipped only when a QRS has been accepted and its index
    is within the refractory period of the last one. *)
Lemma verdict_skipped_last (st : Detector) (c : Z * num) :
  verdict_of cfg st c = Skipped →
  ∃ q, last (qrs_peaks_indices st) = Some q ∧ (c.1 - q ≤ refractory_period cfg)%Z.
Proof.
  unfold verdict_of. destruct (eligible cfg st c.1) eqn:He.
  { by destruct (fgt c.2 (threshold_value st)). }
  intros _. unfold eligible in He. apply orb_false_iff in He as [Hgap Hlen].
  destruct (last (qrs_peaks_indices st)) as [q|] eqn:Hq.
  - exists q. split; [done|].
    rewrite (last_qrs_index_last st q Hq) in Hgap. by apply Z.ltb_ge.
  - apply last_None in Hq. by rewrite Hq in Hlen.
Qed.

Lemma last_elem_of (l : list Z) (q : Z) : last l = Some q → q ∈ l.
Proof. rewrite last_lookup. apply list_elem_of_lookup_2. Qed.

(** Each skipped candidate follows an accepted QRS index within the
    refractory period. *)
Lemma skipped_near_qrs (cs : list (Z * num)) (st : Detector) (i : Z) :
  StronglySorted Z.lt cs.*1 →
  (∀ q c, q ∈ qrs_peaks_indices st → c ∈ cs → (q < c.1)%Z) →
  i ∈ skipped cfg st cs →
  ∃ q, q ∈ qrs_peaks_indices (fold_left (detect_qrs_step cfg) cs st)
       ∧ (q < i)%Z ∧ (i - q ≤ refractory_period cfg)%Z.
Proof.
  revert st. induction cs as [|c cs IH]; intros st Hsorted Hbefore Hi.
  { unfold skipped in Hi. simpl in Hi. by apply elem_of_nil in Hi. }
  simpl in Hsorted. apply StronglySorted_inv in Hsorted as [Hsorted Hc].
  rewrite Forall_forall in Hc.
  assert (∀ q c', q ∈ qrs_peaks_indices (detect_qrs_step cfg st c) →
                  c' ∈ cs → (q < c'.1)%Z) as Hbefore'.
  { intros q c' Hq Hc'.
    pose proof (step_outputs cfg st c) as Hs. simpl in Hs.
    destruct (verdict_of cfg st c).
    - destruct Hs as [Hs _]. rewrite Hs in Hq.
      apply elem_of_app in Hq as [Hq|Hq%list_elem_of_singleton].
      + apply Hbefore; [done|]. by apply list_elem_of_further.
      + subst q. apply Hc. by apply list_elem_of_fmap_2.
    - destruct Hs as [Hs _]. rewrite Hs in Hq.
      apply Hbefore; [done|]. by apply list_elem_of_further.
    - rewrite Hs in Hq. apply Hbefore; [done|]. by apply list_elem_of_further. }
  rewrite skipped_cons in Hi. simpl.
  destruct (verdict_of cfg st c) eqn:Hv; try by apply (IH _ Hsorted Hbefore').
  apply elem_of_cons in Hi as [->|Hi]; [|by apply (IH _ Hsorted Hbefore')].
  destruct (verdict_skipped_last st c Hv) as (q & Hq & Hgap).
  apply last_elem_of in Hq. exists q. split; [|split; [|done]].
  - rewrite (step_skipped cfg st c Hv).
    destruct (run_outputs cfg cs st) as [Hrun _]. simpl in Hrun. rewrite Hrun.
    apply elem_of_app. by left.
  - apply Hbefore; [done|]. apply list_elem_of_here.
Qed.

End SkippedFacts.

(** C3.  For candidates in ascending index order (strictly: a candidate
    sequence has no duplicates), the QRS and the noise sequence are
    disjoint, each is a subsequence of the candidate indices, a candidate
    index is in the QRS sequence, in the noise sequence or among the
    skipped ones, and one that was not skipped is in exactly one of the
    two sequences, once.  The skipped ones are those of the refractory
    rule: each follows an accepted QRS index by at most
    [refractory_period]. *)
Theorem qrs_noise_disjoint_subsequences `{Float} (cfg : Config)
    (idxs : list Z) (vals : list num) :
  StronglySorted Z.lt idxs →
  (∀ i, i ∈ qrs_peaks_indices (detect_qrs cfg init idxs vals) →
        i ∉ noise_peaks_indices (detect_qrs cfg init idxs vals))
  ∧ qrs_peaks_indices (detect_qrs cfg init idxs vals)
      `sublist_of` candidate_indices idxs vals
  ∧ noise_peaks_indices (detect_qrs cfg init idxs vals)
      `sublist_of` candidate_indices idxs vals
  ∧ (∀ i, i ∈ candidate_indices idxs vals ↔
          i ∈ qrs_peaks_indices (detect_qrs cfg init idxs vals)
          ∨ i ∈ noise_peaks_indices (detect_qrs cfg init idxs vals)
          ∨ i ∈ skipped cfg init (zip idxs vals))
  ∧ (∀ i, i ∈ candidate_indices idxs vals →
          i ∉ skipped cfg init (zip idxs vals) →
          (i ∈ qrs_peaks_indices (detect_qrs cfg init idxs vals)
           ∧ i ∉ noise_peaks_indices (detect_qrs cfg init idxs vals))
          ∨ (i ∈ noise_peaks_indices (detect_qrs cfg init idxs vals)
             ∧ i ∉ qrs_peaks_indices (detect_qrs cfg init idxs vals)))
  ∧ NoDup (qrs_peaks_indices (detect_qrs cfg init idxs vals)
           ++ noise_peaks_indices (detect_qrs cfg init idxs vals)
           ++ skipped cfg init (zip idxs vals))
  ∧ (∀ i, i ∈ skipped cfg init (zip idxs vals) →
          ∃ q, q ∈ qrs_peaks_indices (detect_qrs cfg init idxs vals)
               ∧ (q < i)%Z ∧ (i - q ≤ refractory_period cfg)%Z).
Proof.
  intros Hsorted.
  pose proof (run_partition cfg idxs vals) as Hperm.
  assert (NoDup (candidate_indices idxs vals)) as Hnd.
  { eapply sublist_NoDup; [|apply candidate_indices_sublist].
    by apply sorted_lt_NoDup. }
  rewrite <- Hperm in Hnd.
  assert (∀ i, i ∈ candidate_indices idxs vals ↔
            i ∈ qrs_peaks_indices (detect_qrs cfg init idxs vals)
            ∨ i ∈ noise_peaks_indices (detect_qrs cfg init idxs vals)
            ∨ i ∈ skipped cfg init (zip idxs vals)) as Hmem.
  { intros i. rewrite <- Hperm, !elem_of_app. tauto. }
  pose proof Hnd as Hnd'.
  apply NoDup_app in Hnd' as (_ & Hqn & Hns).
  assert (∀ i, i ∈ qrs_peaks_indices (detect_qrs cfg init idxs vals) →
               i ∉ noise_peaks_indices (detect_qrs cfg init idxs vals)) as Hdisj.
  { intros i Hq Hn. apply (Hqn i Hq). apply elem_of_app. by left. }
  destruct (run_outputs cfg (zip idxs vals) init) as [Hq Hn]. simpl in Hq, Hn.
  split; [done|]. split.
  { unfold detect_qrs. rewrite Hq. apply indices_with_sublist. }
  split.
  { unfold detect_qrs. rewrite Hn. apply indices_with_sublist. }
  split; [done|]. split.
  { intros i Hi Hns'. apply Hmem in Hi as [Hi|[Hi|Hi]]; [left|right|done].
    - split; [done|]. by apply Hdisj.
    - split; [done|]. intros Hq'. by apply (Hdisj i Hq'). }
  split; [done|].
  intros i Hi. apply (skipped_near_qrs cfg (zip idxs vals) init i); [| |done].
  - eapply sublist_sorted_lt; [apply candidate_indices_sublist | done].
  - intros q c Hq'. by apply elem_of_nil in Hq'.
Qed.

Lemma qrs_noise_disjoint_subsequences_witness :
  StronglySorted Z.lt [10; 20; 200; 400]%Z
  ∧ qrs_peaks_indices
      (detect_qrs default_config init [10; 20; 200; 400]%Z [1; 1; (1 # 100); 1]%Q)
    `sublist_of` [10; 20; 200; 400]%Z
  ∧ (20%Z ∈ skipped default_config init
              (zip [10; 20; 200; 400]%Z [1; 1; (1 # 100); 1]%Q) →
     ∃ q, q ∈ qrs_peaks_indices
                (detect_qrs default_config init [10; 20; 200; 400]%Z
                   [1; 1; (1 # 100); 1]%Q)
          ∧ (q < 20)%Z ∧ (20 - q ≤ refractory_period default_config)%Z)
  ∧ (200%Z ∈ noise_peaks_indices
                (detect_qrs default_config init [10; 20; 200; 400]%Z
                   [1; 1; (1 # 100); 1]%Q) →
     200%Z ∉ qrs_peaks_indices
                (detect_qrs default_config init [10; 20; 200; 400]%Z
                   [1; 1; (1 # 100); 1]%Q)).
Proof.
  assert (StronglySorted Z.lt [10; 20; 200; 400]%Z) as Hs.
  { repeat (constructor; [|repeat constructor; lia]). constructor. }
  destruct (qrs_noise_disjoint_subsequences default_config
              [10; 20; 200; 400]%Z [1; 1; (1 # 100); 1]%Q Hs)
    as (Hdisj & Hsub & _ & _ & _ & _ & Hskip).
  split; [exact Hs|]. split; [exact Hsub|]. split; [exact (Hskip 20%Z)|].
  intros Hn Hq. exact (Hdisj 200%Z Hq Hn).
Defined.

(** C5.  When a QRS has been accepted and the candidate's index exceeds the
    last accepted index by at most [refractory_period], the step returns
    the state it was given: neither index sequence grows, and the two
    levels and the threshold keep their values. *)
Theorem refractory_candidate_leaves_state `{Float} (cfg : Config)
    (st : Detector) (q i : Z) (v : num) :
  last (qrs_peaks_indices st) = Some q →
  (i - q ≤ refractory_period cfg)%Z →
  detect_qrs_step cfg st (i, v) = st
  ∧ verdict_of cfg st (i, v) = Skipped.
Proof.
  intros Hq Hgap.
  assert (verdict_of cfg st (i, v) = Skipped) as Hv.
  { unfold verdict_of. simpl. rewrite (eligible_after_qrs cfg st q i Hq).
    by rewrite (proj2 (Z.ltb_ge _ _) Hgap). }
  split; [by apply step_skipped | done].
Qed.

Lemma refractory_candidate_leaves_state_witness :
  last (qrs_peaks_indices after_one_qrs) = Some 10%Z
  ∧ (20 - 10 ≤ refractory_period default_config)%Z
  ∧ detect_qrs_step default_config after_one_qrs (20%Z, 1%Q) = after_one_qrs.
Proof.
  assert ((20 - 10 ≤ refractory_period default_config)%Z) as Hgap
    by (simpl; lia).
  split; [reflexivity|]. split; [exact Hgap|].
  exact (proj1 (refractory_candidate_leaves_state default_config after_one_qrs
                  10%Z 20%Z 1%Q eq_refl Hgap)).
Defined.

(** The comparison of line 140 is strict: a first candidate of value 0.0
    would not exceed the zero threshold and would be recorded as noise.
    [findpeaks] delivers no such value under a limit that is not
    negative. *)
Lemma first_candidate_zero_is_noise :
  Qle_bool 0 0 = true
  ∧ qrs_peaks_indices (detect_qrs default_config init [5%Z] [0%Q]) = []
  ∧ noise_peaks_indices (detect_qrs default_config init [5%Z] [0%Q]) = [5%Z].
Proof. by vm_compute. Qed.

(** From the initial state the first candidate always passes the guard,
    and it is accepted as QRS exactly when its value is strictly greater
    than 0.0; otherwise it is recorded as noise. *)
Theorem first_candidate_qrs_iff_positive `{Float} (cfg : Config) (i : Z) (v : num) :
  eligible cfg init i = true
  ∧ (fgt v f0 = true →
       qrs_peaks_indices (detect_qrs_step cfg init (i, v)) = [i]
       ∧ noise_peaks_indices (detect_qrs_step cfg init (i, v)) = [])
  ∧ (fgt v f0 = false →
       qrs_peaks_indices (detect_qrs_step cfg init (i, v)) = []
       ∧ noise_peaks_indices (detect_qrs_step cfg init (i, v)) = [i]).
Proof.
  assert (eligible cfg init i = true) as He by by apply eligible_no_qrs.
  split; [done|].
  unfold detect_qrs_step. rewrite He. simpl.
  split; intros ->; done.
Qed.

Lemma first_candidate_qrs_iff_positive_witness :
  fgt (1 # 2)%Q f0 = true
  ∧ qrs_peaks_indices (detect_qrs_step default_config init (7%Z, (1 # 2)%Q)) = [7%Z].
Proof.
  split; [reflexivity|].
  exact (proj1 (proj1 (proj2 (first_candidate_qrs_iff_positive
                                default_config 7%Z (1 # 2)%Q)) eq_refl)).
Defined.

(** C10, as claimed, fails: a candidate inside the refractory period is put
    in neither sequence, so the two outputs do not cover the candidates. *)
Lemma refractory_candidate_in_neither_output :
  ¬ (qrs_peaks_indices (detect_qrs default_config init [10; 20]%Z [1; 1]%Q)
     ++ noise_peaks_indices (detect_qrs default_config init [10; 20]%Z [1; 1]%Q)
     ≡ₚ candidate_indices [10; 20]%Z [1; 1]%Q).
Proof.
  intros Hp. apply Permutation_length in Hp. vm_compute in Hp. discriminate.
Qed.

(** C10, amended.  Every candidate receives exactly one verdict; the QRS
    sequence holds the candidates with verdict QRS and the noise sequence
    those with verdict noise, each in candidate order; together with the
    candidates skipped by the refractory rule they are a rearrangement of
    the candidate sequence, and when nothing was skipped the two outputs
    alone are. *)
Theorem outputs_partition_unskipped `{Float} (cfg : Config)
    (idxs : list Z) (vals : list num) :
  length (verdicts cfg init (zip idxs vals)) = length (zip idxs vals)
  ∧ qrs_peaks_indices (detect_qrs cfg init idxs vals)
    = indices_with Qrs (verdicts cfg init (zip idxs vals)) (zip idxs vals)
  ∧ noise_peaks_indices (detect_qrs cfg init idxs vals)
    = indices_with Noise (verdicts cfg init (zip idxs vals)) (zip idxs vals)
  ∧ qrs_peaks_indices (detect_qrs cfg init idxs vals)
    ++ noise_peaks_indices (detect_qrs cfg init idxs vals)
    ++ skipped cfg init (zip idxs vals)
    ≡ₚ candidate_indices idxs vals
  ∧ (skipped cfg init (zip idxs vals) = [] →
     qrs_peaks_indices (detect_qrs cfg init idxs vals)
     ++ noise_peaks_indices (detect_qrs cfg init idxs vals)
     ≡ₚ candidate_indices idxs vals).
Proof.
  destruct (run_outputs cfg (zip idxs vals) init) as [Hq Hn]. simpl in Hq, Hn.
  pose proof (run_partition cfg idxs vals) as Hperm.
  split; [apply length_verdicts|].
  split; [exact Hq|]. split; [exact Hn|]. split; [exact Hperm|].
  intros Hnone. rewrite Hnone, app_nil_r in Hperm. exact Hperm.
Qed.

Lemma outputs_partition_unskipped_witness :
  skipped default_config init (zip [10; 200]%Z [1; (1 # 100)]%Q) = []
  ∧ qrs_peaks_indices (detect_qrs default_config init [10; 200]%Z [1; (1 # 100)]%Q)
    ++ noise_peaks_indices (detect_qrs default_config init [10; 200]%Z [1; (1 # 100)]%Q)
    ≡ₚ candidate_indices [10; 200]%Z [1; (1 # 100)]%Q.
Proof.
  split; [reflexivity|].
  exact (proj2 (proj2 (proj2 (proj2 (outputs_partition_unskipped default_config
           [10; 200]%Z [1; (1 # 100)]%Q)))) eq_refl).
Defined.

(** ** The peak finder: the padded array and the loop *)

Section PeakFinderFacts.
Context `{Float}.

Lemma length_fill (lo hi : nat) (c : num) (x : list num) :
  length (fill lo hi c x) = length x.
Proof. apply length_inserts. Qed.

Lemma length_padded (data : list num) (d0 dl : num) (spacing : nat) :
  length (padded data d0 dl spacing) = length data + 2 * spacing.
Proof.
  unfold padded. by rewrite length_inserts, !length_fill, length_replicate.
Qed.

Lemma neighbour_inside (data : list num) (d0 dl di : num) (i : nat) :
  data !! i = Some di → neighbour data d0 dl (Z.of_nat i) = di.
Proof.
  intros Hi. unfold neighbour.
  rewrite (proj2 (Z.ltb_ge _ _)) by lia. by rewrite Nat2Z.id, Hi.
Qed.

(** Every cell of the padded array, read as a neighbour at a signed
    position of the data. *)
Lemma lookup_padded (data : list num) (d0 dl : num) (spacing k : nat) :
  k < length data + 2 * spacing →
  padded data d0 dl spacing !! k
  = Some (neighbour data d0 dl (Z.of_nat k - Z.of_nat spacing)).
Proof.
  intros Hk. unfold padded, neighbour. cbv zeta.
  set (n := length data + 2 * spacing).
  destruct (decide (k < spacing)) as [Hlo|Hlo].
  - rewrite (proj2 (Z.ltb_lt _ _)) by lia.
    rewrite list_lookup_inserts_lt by lia.
    unfold fill at 1. rewrite list_lookup_inserts_lt.
    2:{ unfold neg_start. destruct (Nat.eqb_spec spacing 0); [lia|].
        rewrite length_fill, length_replicate. lia. }
    unfold fill. rewrite list_lookup_inserts.
    2:{ rewrite !length_replicate. lia. }
    2:{ rewrite length_replicate. lia. }
    apply lookup_replicate_2. rewrite length_replicate. lia.
  - rewrite (proj2 (Z.ltb_ge _ _)) by lia.
    replace (Z.to_nat (Z.of_nat k - Z.of_nat spacing)) with (k - spacing) by lia.
    destruct (decide (k < spacing + length data)) as [Hin|Hhi].
    + rewrite list_lookup_inserts.
      2:{ lia. }
      2:{ rewrite !length_fill, length_replicate. lia. }
      destruct (lookup_lt_is_Some_2 data (k - spacing)) as [d Hd]; [lia|].
      by rewrite Hd.
    + rewrite list_lookup_inserts_ge by lia.
      rewrite (lookup_ge_None_2 data) by lia.
      unfold fill at 1. rewrite length_fill, length_replicate. fold n.
      assert (neg_start spacing n = n - spacing) as ->.
      { unfold neg_start. destruct (Nat.eqb_spec spacing 0); [lia|done]. }
      rewrite list_lookup_inserts.
      2:{ rewrite length_replicate. lia. }
      2:{ rewrite length_fill, length_replicate. lia. }
      apply lookup_replicate_2. lia.
Qed.

Lemma lookup_slice (start len j : nat) (x : list num) :
  j < len → slice start (start + len) x !! j = x !! (start + j).
Proof.
  intros Hj. unfold slice. replace (start + len - start) with len by lia.
  by rewrite lookup_take_lt, lookup_drop.
Qed.

Lemma length_slice (start len : nat) (x : list num) :
  start + len ≤ length x → length (slice start (start + len) x) = len.
Proof.
  intros Hx. unfold slice. rewrite length_take, length_drop. lia.
Qed.

Section Loop.
Variables (data : list num) (d0 dl : num) (spacing : nat).

Lemma length_narrow (pc : list bool) (s : nat) :
  s < spacing → length pc = length data →
  length (narrow (padded data d0 dl spacing) (length data) spacing pc s)
  = length data.
Proof.
  intros Hs Hpc. unfold narrow.
  rewrite !length_zip_with, !length_slice; rewrite ?length_padded; lia.
Qed.

Lemma lookup_narrow (pc : list bool) (s i : nat) (b : bool) (di : num) :
  s < spacing → pc !! i = Some b → data !! i = Some di →
  narrow (padded data d0 dl spacing) (length data) spacing pc s !! i
  = Some (b && window_test data d0 dl i di s).
Proof.
  intros Hs Hb Hi. pose proof (lookup_lt_Some _ _ _ Hi) as Hlt.
  unfold narrow, window_test.
  rewrite !lookup_zip_with, !lookup_slice by done.
  rewrite !lookup_padded by lia. rewrite Hb. simpl.
  replace (Z.of_nat (spacing + i) - Z.of_nat spacing)%Z with (Z.of_nat i) by lia.
  replace (Z.of_nat (spacing - s - 1 + i) - Z.of_nat spacing)%Z
    with (Z.of_nat i - (Z.of_nat s + 1))%Z by lia.
  replace (Z.of_nat (spacing + s + 1 + i) - Z.of_nat spacing)%Z
    with (Z.of_nat i + (Z.of_nat s + 1))%Z by lia.
  by rewrite (neighbour_inside _ _ _ _ _ Hi).
Qed.

Lemma fold_narrow (ss : list nat) (pc : list bool) :
  Forall (λ s, s < spacing) ss → length pc = length data →
  length (fold_left (narrow (padded data d0 dl spacing) (length data) spacing) ss pc)
  = length data
  ∧ ∀ i b di, pc !! i = Some b → data !! i = Some di →
      fold_left (narrow (padded data d0 dl spacing) (length data) spacing) ss pc !! i
      = Some (b && forallb (window_test data d0 dl i di) ss).
Proof.
  revert pc. induction ss as [|s ss IH]; intros pc Hss Hpc; simpl.
  - split; [done|]. intros i b di Hb _. by rewrite andb_true_r.
  - apply Forall_cons in Hss as [Hs Hss].
    destruct (IH _ Hss (length_narrow pc s Hs Hpc)) as [Hlen Hlook].
    split; [done|]. intros i b di Hb Hi.
    rewrite (Hlook i _ di (lookup_narrow pc s i b di Hs Hb Hi) Hi).
    by rewrite andb_assoc.
Qed.

(** The mask after the loop of lines 194-201. *)
Lemma peak_mask :
  fold_left (narrow (padded data d0 dl spacing) (length data) spacing)
    (seq 0 spacing) (replicate (length data) true)
  = map (strict_local_max data d0 dl spacing) (seq 0 (length data)).
Proof.
  destruct (fold_narrow (seq 0 spacing) (replicate (length data) true))
    as [Hlen Hlook].
  { apply Forall_forall. intros s Hs%elem_of_seq. lia. }
  { apply length_replicate. }
  apply list_eq. intros i.
  destruct (decide (i < length data)) as [Hi|Hi].
  - destruct (lookup_lt_is_Some_2 data i Hi) as [di Hdi].
    rewrite (Hlook i true di (lookup_replicate_2 _ _ _ Hi) Hdi).
    rewrite list_lookup_fmap, lookup_seq_lt by done. simpl.
    unfold strict_local_max. by rewrite Hdi.
  - rewrite !lookup_ge_None_2; [done| |].
    + rewrite length_map, length_seq. lia.
    + rewrite Hlen. lia.
Qed.

End Loop.

Lemma argwhere_from_map (f : nat → bool) (n k : nat) :
  argwhere_from k (map f (seq k n)) = List.filter f (seq k n).
Proof.
  revert k. induction n as [|n IH]; intros k; simpl; [done|].
  rewrite IH. by destruct (f k).
Qed.

Lemma take_at_inside (data : list num) (ind : list nat) :
  Forall (λ i, i < length data) ind →
  ∃ vs, take_at data ind = inr vs ∧ Forall2 (λ i v, data !! i = Some v) ind vs.
Proof.
  intros Hind. unfold take_at.
  destruct (mapM (λ i, data !! i) ind) as [vs|] eqn:Hm.
  - exists vs. split; [done|]. by apply mapM_Some_1.
  - assert (is_Some (mapM (λ i, data !! i) ind)) as [vs Hvs].
    { apply mapM_is_Some_2. eapply Forall_impl; [exact Hind|].
      intros i Hi. by apply lookup_lt_is_Some_2. }
    congruence.
Qed.

Lemma select_above_limit (data : list num) (lim : num) (ind : list nat) (vs : list num) :
  Forall2 (λ i v, data !! i = Some v) ind vs →
  select (map (λ v, fgt v lim) vs) ind
  = List.filter (above_limit data (Some lim)) ind.
Proof.
  induction 1 as [|i v ind vs Hi _ IH]; simpl; [done|].
  unfold above_limit at 1. rewrite Hi, IH. done.
Qed.

Lemma filter_filter_andb (f g : nat → bool) (l : list nat) :
  List.filter g (List.filter f l) = List.filter (λ i, f i && g i) l.
Proof.
  induction l as [|i l IH]; simpl; [done|].
  destruct (f i); simpl; [|done]. destruct (g i); by rewrite IH.
Qed.

Lemma filter_seq_bound (f : nat → bool) (n : nat) :
  Forall (λ i, i < n) (List.filter f (seq 0 n)).
Proof.
  apply Forall_forall. intros i Hi%list_elem_of_In%filter_In.
  destruct Hi as [Hi%in_seq _]. lia.
Qed.

(** [findpeaks] computes the list the specification describes. *)
Lemma findpeaks_spec_peaks (data : list num) (d0 dl : num)
    (spacing : nat) (limit : option num) :
  head data = Some d0 → last data = Some dl →
  findpeaks data spacing limit = inr (spec_peaks data spacing limit).
Proof.
  intros Hd0 Hdl. unfold findpeaks, spec_peaks. rewrite Hd0, Hdl.
  rewrite peak_mask. unfold argwhere. rewrite argwhere_from_map.
  destruct limit as [lim|].
  - destruct (take_at_inside data
                (List.filter (strict_local_max data d0 dl spacing)
                   (seq 0 (length data)))) as (vs & -> & Hvs).
    { apply filter_seq_bound. }
    by rewrite (select_above_limit _ _ _ _ Hvs), filter_filter_andb.
  - f_equal. apply List.filter_ext. intros i. by rewrite andb_true_r.
Qed.

End PeakFinderFacts.

(** ** The peak finder: which indices are returned *)

Section PeakFinderResults.
Context `{Float}.

Lemma strict_local_max_true (data : list num) (d0 dl : num) (spacing i : nat) :
  strict_local_max data d0 dl spacing i = true ↔
  ∃ di, data !! i = Some di
        ∧ ∀ s, s < spacing →
            fgt di (neighbour data d0 dl (Z.of_nat i - (Z.of_nat s + 1))) = true
            ∧ fgt di (neighbour data d0 dl (Z.of_nat i + (Z.of_nat s + 1))) = true.
Proof.
  unfold strict_local_max.
  destruct (data !! i) as [di|]; [|split; [done | by intros (? & ? & _)]].
  rewrite forallb_forall. split.
  - intros Hall. exists di. split; [done|]. intros s Hs.
    apply andb_true_iff, Hall, in_seq. lia.
  - intros (di' & Heq & Hall) s Hs%in_seq. simplify_eq.
    apply andb_true_iff, Hall. lia.
Qed.

Lemma above_limit_true (data : list num) (limit : option num) (i : nat) (di : num) :
  data !! i = Some di →
  above_limit data limit i = true ↔ ∀ lim, limit = Some lim → fgt di lim = true.
Proof.
  intros Hi. unfold above_limit. rewrite Hi.
  destruct limit as [lim|]; naive_solver.
Qed.

Lemma elem_of_spec_peaks (data : list num) (d0 dl : num)
    (spacing : nat) (limit : option num) (i : nat) :
  head data = Some d0 → last data = Some dl →
  i ∈ spec_peaks data spacing limit ↔
  ∃ di, data !! i = Some di
        ∧ (∀ s, s < spacing →
             fgt di (neighbour data d0 dl (Z.of_nat i - (Z.of_nat s + 1))) = true
             ∧ fgt di (neighbour data d0 dl (Z.of_nat i + (Z.of_nat s + 1))) = true)
        ∧ (∀ lim, limit = Some lim → fgt di lim = true).
Proof.
  intros Hd0 Hdl. unfold spec_peaks. rewrite Hd0, Hdl.
  rewrite list_elem_of_In, filter_In, in_seq, andb_true_iff, strict_local_max_true.
  split.
  - intros (_ & (di & Hi & Hwin) & Hlim). exists di.
    split; [done|]. split; [done|]. by apply (above_limit_true data limit i di Hi).
  - intros (di & Hi & Hwin & Hlim). split; [|split].
    + apply lookup_lt_Some in Hi. lia.
    + by exists di.
    + by apply (above_limit_true data limit i di Hi).
Qed.

Lemma filter_seq_sorted (f : nat → bool) (n k : nat) :
  StronglySorted lt (List.filter f (seq k n)).
Proof.
  revert k. induction n as [|n IH]; intros k; simpl; [constructor|].
  destruct (f k); [|apply IH].
  constructor; [apply IH|].
  apply Forall_forall. intros j Hj%list_elem_of_In%filter_In.
  destruct Hj as [Hj%in_seq _]. lia.
Qed.

Lemma spec_peaks_sorted (data : list num) (spacing : nat) (limit : option num) :
  StronglySorted lt (spec_peaks data spacing limit).
Proof.
  unfold spec_peaks. destruct (head data), (last data); try constructor.
  apply filter_seq_sorted.
Qed.

Lemma nonempty_head_last (data : list num) :
  data ≠ [] → ∃ d0 dl, head data = Some d0 ∧ last data = Some dl.
Proof.
  intros Hne. destruct data as [|d data]; [done|].
  exists d. destruct (last_is_Some (d :: data)) as [_ [dl Hdl]]; [done|]. eauto.
Qed.

End PeakFinderResults.

(** C2.  For a non-empty sequence (first value [d0], last value [dl]), any
    spacing and any optional limit, [findpeaks] returns the ascending list
    of exactly those indices [i] whose value is strictly greater than the
    values [s+1] places before and after it for every offset [s] below the
    spacing, positions outside the sequence counting as the nearest
    boundary value minus 1e-6, and strictly greater than the limit when one
    is given.  An index whose value equals that of a neighbour inside the
    window is not returned. *)
Theorem findpeaks_strict_local_maxima `{Float} (data : list num) (d0 dl : num)
    (spacing : nat) (limit : option num) :
  head data = Some d0 → last data = Some dl →
  ∃ ind,
    findpeaks data spacing limit = inr ind
    ∧ ind = spec_peaks data spacing limit
    ∧ StronglySorted lt ind
    ∧ (∀ i, i ∈ ind ↔
         ∃ di, data !! i = Some di
           ∧ (∀ s, s < spacing →
                fgt di (neighbour data d0 dl (Z.of_nat i - (Z.of_nat s + 1))) = true
                ∧ fgt di (neighbour data d0 dl (Z.of_nat i + (Z.of_nat s + 1))) = true)
           ∧ (∀ lim, limit = Some lim → fgt di lim = true))
    ∧ (∀ i di s, data !! i = Some di → s < spacing →
         feq di (neighbour data d0 dl (Z.of_nat i - (Z.of_nat s + 1))) = true
         ∨ feq di (neighbour data d0 dl (Z.of_nat i + (Z.of_nat s + 1))) = true →
         i ∉ ind).
Proof.
  intros Hd0 Hdl. exists (spec_peaks data spacing limit).
  split; [by eapply findpeaks_spec_peaks|]. split; [done|].
  split; [apply spec_peaks_sorted|]. split.
  - intros i. by apply elem_of_spec_peaks.
  - intros i di s Hi Hs Htie Hin.
    apply (elem_of_spec_peaks data d0 dl spacing limit i Hd0 Hdl) in Hin
      as (di' & Hi' & Hwin & _).
    assert (di' = di) as -> by congruence.
    destruct (Hwin s Hs) as [Hb Ha].
    destruct Htie as [Htie|Htie]; apply fgt_feq in Htie; congruence.
Qed.

Lemma findpeaks_strict_local_maxima_witness :
  head [2; 1; 1; 3; 3; 1]%Q = Some 2%Q
  ∧ last [2; 1; 1; 3; 3; 1]%Q = Some 1%Q
  ∧ findpeaks [2; 1; 1; 3; 3; 1]%Q 2 (Some 1%Q) = inr [0].
Proof.
  split; [reflexivity|]. split; [reflexivity|].
  destruct (@findpeaks_strict_local_maxima Q_Float [2; 1; 1; 3; 3; 1]%Q 2%Q 1%Q 2
              (Some 1%Q) eq_refl eq_refl) as (ind & Hrun & Hind & _).
  rewrite Hrun, Hind. reflexivity.
Defined.

(** C9, as claimed, fails in two ways.  A lower local maximum elsewhere in
    the sequence is returned as well: in [0,1,0,5,0,0,0] the single strict
    global maximum is at index 3, spacing 1 is within its distance 3 to
    either boundary and the limit 0 is below the maximum, yet the result is
    [1,3].  And with the limit equal to the maximum value the maximum
    itself is not returned. *)
Lemma single_maximum_not_alone :
  (∀ j dj, j ≠ 3 → [0; 1; 0; 5; 0; 0; 0]%Q !! j = Some dj → Qgtb 5 dj = true)
  ∧ 1 ≤ 3 ∧ 3 + 1 < length [0; 1; 0; 5; 0; 0; 0]%Q
  ∧ Qle_bool 0 5 = true ∧ Qle_bool 5 5 = true
  ∧ @findpeaks Q_Float [0; 1; 0; 5; 0; 0; 0]%Q 1 (Some 0%Q) = inr [1; 3]
  ∧ @findpeaks Q_Float [0; 1; 0; 5; 0; 0; 0]%Q 1 (Some 5%Q) = inr [].
Proof.
  split.
  - intros j dj Hj Hdj.
    do 7 (destruct j as [|j]; [simplify_eq/=; try done|]); done.
  - repeat split; try reflexivity; simpl; lia.
Qed.

(** C9, amended.  For a sequence whose value at index [i] is strictly
    greater than every other value, a spacing no greater than the distance
    from [i] to either boundary, and no limit or a limit strictly below the
    maximum, [findpeaks] returns a list that contains [i], and every other
    index it returns lies more than [spacing] places away from [i]. *)
Theorem findpeaks_single_maximum `{Float} (data : list num) (i : nat) (m : num)
    (spacing : nat) (limit : option num) :
  data !! i = Some m →
  (∀ j dj, j ≠ i → data !! j = Some dj → fgt m dj = true) →
  spacing ≤ i → i + spacing < length data →
  (∀ lim, limit = Some lim → fgt m lim = true) →
  ∃ ind,
    findpeaks data spacing limit = inr ind
    ∧ i ∈ ind
    ∧ ∀ j, j ∈ ind → j ≠ i → j + spacing < i ∨ i + spacing < j.
Proof.
  intros Hi Hmax Hleft Hright Hlim.
  destruct (nonempty_head_last data) as (d0 & dl & Hd0 & Hdl).
  { intros ->. by rewrite lookup_nil in Hi. }
  exists (spec_peaks data spacing limit).
  split; [by eapply findpeaks_spec_peaks|]. split.
  - apply (elem_of_spec_peaks data d0 dl spacing limit i Hd0 Hdl).
    exists m. split; [done|]. split; [|done].
    intros s Hs. split.
    + destruct (lookup_lt_is_Some_2 data (i - (s + 1))) as [d Hd]; [lia|].
      replace (Z.of_nat i - (Z.of_nat s + 1))%Z with (Z.of_nat (i - (s + 1))) by lia.
      rewrite (neighbour_inside _ _ _ _ _ Hd). apply (Hmax (i - (s + 1))); [lia|done].
    + destruct (lookup_lt_is_Some_2 data (i + (s + 1))) as [d Hd]; [lia|].
      replace (Z.of_nat i + (Z.of_nat s + 1))%Z with (Z.of_nat (i + (s + 1))) by lia.
      rewrite (neighbour_inside _ _ _ _ _ Hd). apply (Hmax (i + (s + 1))); [lia|done].
  - intros j Hj Hne.
    apply (elem_of_spec_peaks data d0 dl spacing limit j Hd0 Hdl) in Hj
      as (dj & Hdj & Hwin & _).
    pose proof (fgt_asym _ _ (Hmax j dj Hne Hdj)) as Hnot.
    destruct (decide (j + spacing < i)) as [|Hfar1]; [by left|].
    destruct (decide (i + spacing < j)) as [|Hfar2]; [by right|].
    exfalso. destruct (decide (j < i)) as [Hlt|Hgt].
    + destruct (Hwin (i - j - 1) ltac:(lia)) as [_ Ha].
      replace (Z.of_nat j + (Z.of_nat (i - j - 1) + 1))%Z with (Z.of_nat i) in Ha by lia.
      rewrite (neighbour_inside _ _ _ _ _ Hi) in Ha. congruence.
    + destruct (Hwin (j - i - 1) ltac:(lia)) as [Hb _].
      replace (Z.of_nat j - (Z.of_nat (j - i - 1) + 1))%Z with (Z.of_nat i) in Hb by lia.
      rewrite (neighbour_inside _ _ _ _ _ Hi) in Hb. congruence.
Qed.

Lemma findpeaks_single_maximum_witness :
  [0; 1; 0; 5; 0; 0; 0]%Q !! 3 = Some 5%Q
  ∧ 2 ≤ 3 ∧ 3 + 2 < length [0; 1; 0; 5; 0; 0; 0]%Q
  ∧ ∃ ind, @findpeaks Q_Float [0; 1; 0; 5; 0; 0; 0]%Q 2 (Some 1%Q) = inr ind
           ∧ 3 ∈ ind.
Proof.
  assert (∀ j dj, j ≠ 3 → [0; 1; 0; 5; 0; 0; 0]%Q !! j = Some dj →
            @fgt Q_Float 5%Q dj = true) as Hmax.
  { intros j dj Hj Hdj.
    do 7 (destruct j as [|j]; [simplify_eq/=; try done|]); done. }
  assert (∀ lim, Some 1%Q = Some lim → @fgt Q_Float 5%Q lim = true) as Hlim.
  { intros lim Hl. by simplify_eq. }
  assert (2 ≤ 3) as Hleft by lia.
  assert (3 + 2 < length [0; 1; 0; 5; 0; 0; 0]%Q) as Hright by (simpl; lia).
  split; [reflexivity|]. split; [exact Hleft|]. split; [exact Hright|].
  destruct (@findpeaks_single_maximum Q_Float [0; 1; 0; 5; 0; 0; 0]%Q 3 5%Q 2
              (Some 1%Q) eq_refl Hmax Hleft Hright Hlim) as (ind & Hrun & Hin & _).
  exists ind. by split.
Defined.

(** ** Signal conditioning: lengths of the stages *)

Section ConditionerFacts.
Context `{Float}.

Lemma length_ediff1d (ary : list num) :
  length (ediff1d ary) = length ary - 1.
Proof.
  unfold ediff1d. rewrite length_zip_with, length_drop, length_take. lia.
Qed.

Lemma length_square (signal : list num) : length (square signal) = length signal.
Proof. apply length_map. Qed.

Lemma length_ones (n : nat) : length (ones n) = n.
Proof. apply length_replicate. Qed.

Lemma length_add_seqs (p q : list num) :
  length (add_seqs p q) = length p `max` length q.
Proof.
  revert q. induction p as [|a p IH]; intros [|b q]; simpl; try done.
  by rewrite IH.
Qed.

Lemma length_full_convolution (a v : list num) :
  a ≠ [] → v ≠ [] →
  length (full_convolution a v) = length a + length v - 1.
Proof.
  intros Ha Hv. assert (1 ≤ length v) as Hm by (destruct v; simpl; [done|lia]).
  clear Hv. induction a as [|x a IH]; [done|]. simpl.
  rewrite length_add_seqs, length_map. simpl.
  destruct a as [|y a]; [simpl; lia|].
  rewrite IH by done. simpl. lia.
Qed.

Lemma convolve_inr (a v c : list num) :
  convolve a v = inr c →
  a ≠ [] ∧ v ≠ [] ∧ c = full_convolution a v.
Proof.
  unfold convolve. destruct a as [|x a]; [done|]. destruct v as [|y v]; [done|].
  intros [= <-]. done.
Qed.

Lemma convolve_nonempty (a v : list num) :
  a ≠ [] → v ≠ [] → convolve a v = inr (full_convolution a v).
Proof. by destruct a, v. Qed.

Lemma take_at_spec_peaks (data : list num) (spacing : nat) (limit : option num) :
  ∃ vs, take_at data (spec_peaks data spacing limit) = inr vs.
Proof.
  destruct (take_at_inside data (spec_peaks data spacing limit)) as (vs & Hvs & _).
  - unfold spec_peaks. destruct (head data), (last data); try constructor.
    apply filter_seq_bound.
  - by exists vs.
Qed.

(** What a successful run of the stages assigned. *)
Lemma condition_inr (cfg : Config) (filtered : list num) (p : Peaks) :
  condition cfg filtered = inr p →
  filtered_signal p = filtered
  ∧ differentiated_signal p = ediff1d filtered
  ∧ squared_signal p = square (ediff1d filtered)
  ∧ convolve (squared_signal p) (ones (integration_window cfg))
    = inr (integrated_signal p).
Proof.
  unfold condition.
  destruct (convolve (square (ediff1d filtered)) (ones (integration_window cfg)))
    as [e|integrated] eqn:Hc; [done|].
  destruct (findpeaks integrated (findpeaks_spacing cfg) (Some (findpeaks_limit cfg)))
    as [e|ind]; [done|].
  destruct (take_at integrated ind) as [e|vals]; [done|].
  intros [= <-]. simpl. by rewrite Hc.
Qed.

(** The stages run to the end on two samples or more. *)
Lemma condition_total (cfg : Config) (filtered : list num) :
  2 ≤ length filtered → 1 ≤ integration_window cfg →
  ∃ p, condition cfg filtered = inr p.
Proof.
  intros Hlen Hw. unfold condition.
  assert (square (ediff1d filtered) ≠ []) as Hsq.
  { intros Heq%(f_equal length). rewrite length_square, length_ediff1d in Heq.
    simpl in Heq. lia. }
  assert (ones (integration_window cfg) ≠ []) as Hones.
  { intros Heq%(f_equal length). rewrite length_ones in Heq. simpl in Heq. lia. }
  rewrite (convolve_nonempty _ _ Hsq Hones).
  set (integrated := full_convolution _ _).
  assert (integrated ≠ []) as Hint.
  { intros Heq%(f_equal length). unfold integrated in Heq.
    rewrite (length_full_convolution _ _ Hsq Hones), length_ones in Heq.
    rewrite length_square, length_ediff1d in Heq. simpl in Heq. lia. }
  destruct (nonempty_head_last integrated Hint) as (d0 & dl & Hd0 & Hdl).
  rewrite (findpeaks_spec_peaks integrated d0 dl _ _ Hd0 Hdl).
  destruct (take_at_spec_peaks integrated (findpeaks_spacing cfg)
              (Some (findpeaks_limit cfg))) as [vals ->].
  eauto.
Qed.

(** They stop at [np.convolve] on fewer than two samples. *)
Lemma condition_short (cfg : Config) (filtered : list num) :
  length filtered < 2 → condition cfg filtered = inl ValueError.
Proof.
  intros Hlen. unfold condition.
  assert (ediff1d filtered = []) as ->; [|done].
  apply nil_length_inv. rewrite length_ediff1d. lia.
Qed.

(** [bandpass_filter] checks nothing itself: its outcome is that of the two
    scipy routines. *)
Lemma bandpass_filter_delegates
    (butter : nat → num → num → result (list num * list num))
    (lfilter : list num → list num → list num → result (list num))
    (data : list num) (lowcut highcut signal_freq low high : num) (order : nat) :
  fdiv lowcut (fmul f0_5 signal_freq) = Some low →
  fdiv highcut (fmul f0_5 signal_freq) = Some high →
  bandpass_filter butter lfilter data lowcut highcut signal_freq order
  = match butter order low high with
    | inr (b, a) => lfilter b a data
    | inl e => inl e
    end.
Proof. intros Hlow Hhigh. unfold bandpass_filter. by rewrite Hlow, Hhigh. Qed.

End ConditionerFacts.

(** C4.  Whatever filter coefficients and filtered signal scipy delivers:
    when the filtered signal has at least two samples and the integration
    window is at least 1, [detect_peaks] runs to the end; and whenever it
    does, the differentiated signal is one sample shorter than the filtered
    signal and the integrated signal is [integration_window - 1] samples
    longer than the squared signal. *)
Theorem conditioning_lengths `{Float}
    (butter : nat → num → num → result (list num * list num))
    (lfilter : list num → list num → list num → result (list num))
    (cfg : Config) (ecg_measurements : list num) :
  (∀ filtered,
      bandpass_filter butter lfilter ecg_measurements (filter_lowcut cfg)
        (filter_highcut cfg) (signal_frequency cfg) (filter_order cfg)
      = inr filtered →
      2 ≤ length filtered → 1 ≤ integration_window cfg →
      ∃ p, detect_peaks butter lfilter cfg ecg_measurements = inr p)
  ∧ (∀ p, detect_peaks butter lfilter cfg ecg_measurements = inr p →
      Z.of_nat (length (differentiated_signal p))
      = (Z.of_nat (length (filtered_signal p)) - 1)%Z
      ∧ Z.of_nat (length (integrated_signal p))
        = (Z.of_nat (length (squared_signal p))
           + Z.of_nat (integration_window cfg) - 1)%Z).
Proof.
  split.
  - intros filtered Hf Hlen Hw. unfold detect_peaks. rewrite Hf.
    by apply condition_total.
  - intros p. unfold detect_peaks.
    destruct (bandpass_filter _ _ _ _ _ _ _) as [e|filtered]; [done|].
    intros (Hf & Hd & Hs & Hc)%condition_inr.
    apply convolve_inr in Hc as (Hsq & Hones & Hi).
    rewrite Hi, (length_full_convolution _ _ Hsq Hones), length_ones.
    rewrite Hd, Hf, length_ediff1d.
    assert (1 ≤ length (squared_signal p)) as Hn
      by (destruct (squared_signal p); simpl; [done|lia]).
    rewrite Hs, length_square, length_ediff1d in Hn.
    assert (1 ≤ integration_window cfg) as Hw.
    { destruct (integration_window cfg); [done|lia]. }
    lia.
Qed.

Lemma conditioning_lengths_witness :
  ∃ p, @detect_peaks Q_Float unit_butter unit_lfilter default_config [0; 1; 0; 2]%Q
       = inr p
       ∧ Z.of_nat (length (differentiated_signal p)) = 3%Z
       ∧ Z.of_nat (length (integrated_signal p)) = 17%Z.
Proof.
  destruct (@conditioning_lengths Q_Float unit_butter unit_lfilter default_config
              [0; 1; 0; 2]%Q) as [Hruns Hlen].
  destruct (Hruns [0; 1; 0; 2]%Q eq_refl) as [p Hp]; [simpl; lia | simpl; lia |].
  exists p. split; [exact Hp|].
  destruct (Hlen p Hp) as [Hd Hi].
  destruct (condition_inr default_config [0; 1; 0; 2]%Q p Hp) as (Hf & _ & Hs & _).
  rewrite Hd, Hi, Hs, Hf. split; reflexivity.
Defined.

(** C8, as claimed, fails: a sequence of three samples is shorter than twice
    the spacing 50; [findpeaks] returns a peak for it, and the stages of
    [detect_peaks] run on it to the end, with an empty list of peaks. *)
Lemma short_sequence_returns_peaks :
  length [1; 3; 1]%Q < 2 * 50
  ∧ @findpeaks Q_Float [1; 3; 1]%Q 50 (Some (35 # 100)%Q) = inr [1]
  ∧ match condition default_config [1; 3; 1]%Q with
    | inr p => detected_peaks_indices p = []
    | inl _ => False
    end.
Proof. split; [simpl; lia|]. split; [reflexivity | by vm_compute]. Qed.

(** C8, amended.  The code never compares the length of the signal with the
    spacing.  [findpeaks] fails exactly on the empty sequence, with the
    index error of reading its first element, and returns a list of peaks
    on every non-empty one; the stages of [detect_peaks] after the filter
    fail exactly when [np.convolve] has an empty operand, that is on fewer
    than two filtered samples or an empty window, and run to the end on any
    two samples or more. *)
Theorem findpeaks_fails_only_on_empty `{Float} (cfg : Config) (data : list num)
    (spacing : nat) (limit : option num) :
  (data = [] → findpeaks data spacing limit = inl IndexError)
  ∧ (data ≠ [] → ∃ ind, findpeaks data spacing limit = inr ind)
  ∧ (length data < 2 → condition cfg data = inl ValueError)
  ∧ (integration_window cfg = 0 → condition cfg data = inl ValueError)
  ∧ (2 ≤ length data → 1 ≤ integration_window cfg →
     ∃ p, condition cfg data = inr p).
Proof.
  split; [by intros ->|]. split; [|split; [|split]].
  - intros Hne. destruct (nonempty_head_last data Hne) as (d0 & dl & Hd0 & Hdl).
    exists (spec_peaks data spacing limit). by eapply findpeaks_spec_peaks.
  - apply condition_short.
  - intros Hw. unfold condition. rewrite Hw. simpl.
    by destruct (square (ediff1d data)).
  - apply condition_total.
Qed.

Lemma findpeaks_fails_only_on_empty_witness :
  [1; 3; 1]%Q ≠ []
  ∧ (∃ ind, @findpeaks Q_Float [1; 3; 1]%Q 50 None = inr ind)
  ∧ 2 ≤ length [1; 3; 1]%Q ∧ 1 ≤ integration_window default_config
  ∧ ∃ p, condition default_config [1; 3; 1]%Q = inr p.
Proof.
  assert ([1; 3; 1]%Q ≠ []) as Hne by discriminate.
  assert (2 ≤ length [1; 3; 1]%Q) as Hlen by (simpl; lia).
  assert (1 ≤ integration_window default_config) as Hw by (simpl; lia).
  destruct (@findpeaks_fails_only_on_empty Q_Float default_config [1; 3; 1]%Q 50 None)
    as (_ & Hfind & _ & _ & Hcond).
  split; [exact Hne|]. split; [exact (Hfind Hne)|].
  split; [exact Hlen|]. split; [exact Hw|]. exact (Hcond Hlen Hw).
Defined.

(** * Further properties of the code *)

(** ** [detect_qrs]: growth and order of the outputs *)

(** X3.  A run only appends: the index sequences the state held before are
    prefixes of the ones it holds after, whatever the candidates. *)
Theorem detect_qrs_extends_outputs `{Float} (cfg : Config) (st : Detector)
    (idxs : list Z) (vals : list num) :
  qrs_peaks_indices st `prefix_of` qrs_peaks_indices (detect_qrs cfg st idxs vals)
  ∧ noise_peaks_indices st
    `prefix_of` noise_peaks_indices (detect_qrs cfg st idxs vals).
Proof.
  destruct (run_outputs cfg (zip idxs vals) st) as [Hq Hn]. simpl in Hq, Hn.
  unfold detect_qrs. rewrite Hq, Hn. split; by eexists.
Qed.

(** X4.  From the initial state and for strictly ascending candidate
    indices, the QRS sequence and the noise sequence are strictly
    ascending. *)
Theorem detect_qrs_outputs_ascending `{Float} (cfg : Config)
    (idxs : list Z) (vals : list num) :
  StronglySorted Z.lt idxs →
  StronglySorted Z.lt (qrs_peaks_indices (detect_qrs cfg init idxs vals))
  ∧ StronglySorted Z.lt (noise_peaks_indices (detect_qrs cfg init idxs vals)).
Proof.
  intros Hs.
  destruct (run_outputs cfg (zip idxs vals) init) as [Hq Hn]. simpl in Hq, Hn.
  unfold detect_qrs. rewrite Hq, Hn.
  split; (eapply sublist_sorted_lt; [|exact Hs]);
    (etrans; [apply indices_with_sublist | apply candidate_indices_sublist]).
Qed.

Lemma detect_qrs_outputs_ascending_witness :
  StronglySorted Z.lt [10; 20; 200; 400]%Z
  ∧ StronglySorted Z.lt
      (noise_peaks_indices
         (detect_qrs default_config init [10; 20; 200; 400]%Z [1; 1; (1 # 100); 1]%Q)).
Proof.
  assert (StronglySorted Z.lt [10; 20; 200; 400]%Z) as Hs.
  { repeat (constructor; [|repeat constructor; lia]). constructor. }
  split; [exact Hs|].
  exact (proj2 (detect_qrs_outputs_ascending default_config
                  [10; 20; 200; 400]%Z [1; 1; (1 # 100); 1]%Q Hs)).
Defined.

Lemma gapped_span (R : Z) (l : list Z) :
  (0 ≤ R)%Z → gapped R l →
  ∀ b a qa qb, a ≤ b → l !! a = Some qa → l !! b = Some qb →
    ((Z.of_nat b - Z.of_nat a) * (R + 1) ≤ qb - qa)%Z.
Proof.
  intros HR Hl. induction b as [|b IH]; intros a qa qb Hab Ha Hb.
  - assert (a = 0) as -> by lia. simplify_eq. lia.
  - destruct (decide (a = S b)) as [->|Hne]; [simplify_eq; lia|].
    destruct (lookup_lt_is_Some_2 l b) as [qm Hm].
    { apply lookup_lt_Some in Hb. lia. }
    pose proof (IH a qa qm ltac:(lia) Ha Hm).
    pose proof (Hl b qm qb Hm Hb). nia.
Qed.

(** X5.  With a refractory period of at least 0, [n] accepted QRS indices
    span at least [(n - 1) * (refractory_period + 1)] samples from the
    first to the last: the number of beats found in a stretch of signal is
    bounded. *)
Theorem qrs_count_bounded_by_span `{Float} (cfg : Config)
    (idxs : list Z) (vals : list num) (first last_ : Z) :
  (0 ≤ refractory_period cfg)%Z →
  head (qrs_peaks_indices (detect_qrs cfg init idxs vals)) = Some first →
  last (qrs_peaks_indices (detect_qrs cfg init idxs vals)) = Some last_ →
  ((Z.of_nat (length (qrs_peaks_indices (detect_qrs cfg init idxs vals))) - 1)
   * (refractory_period cfg + 1) ≤ last_ - first)%Z.
Proof.
  intros HR Hfirst Hlast.
  assert (gapped (refractory_period cfg)
            (qrs_peaks_indices (detect_qrs cfg init idxs vals))) as Hg.
  { apply run_gapped, gapped_nil. }
  rewrite head_lookup in Hfirst. rewrite last_lookup in Hlast.
  pose proof (lookup_lt_Some _ _ _ Hfirst) as Hlen.
  pose proof (gapped_span _ _ HR Hg _ 0 first last_ ltac:(lia) Hfirst Hlast) as Hspan.
  replace (Z.of_nat (pred (length (qrs_peaks_indices (detect_qrs cfg init idxs vals))))
           - Z.of_nat 0)%Z
    with (Z.of_nat (length (qrs_peaks_indices (detect_qrs cfg init idxs vals))) - 1)%Z
    in Hspan by lia.
  exact Hspan.
Qed.

Lemma qrs_count_bounded_by_span_witness :
  (0 ≤ refractory_period default_config)%Z
  ∧ ((Z.of_nat (length (qrs_peaks_indices
        (detect_qrs default_config init [10; 20; 200; 400]%Z [1; 1; 1; 1]%Q))) - 1)
     * (refractory_period default_config + 1) ≤ 400 - 10)%Z.
Proof.
  assert ((0 ≤ refractory_period default_config)%Z) as HR by (simpl; lia).
  split; [exact HR|].
  exact (qrs_count_bounded_by_span default_config [10; 20; 200; 400]%Z
           [1; 1; 1; 1]%Q 10%Z 400%Z HR eq_refl eq_refl).
Defined.

(** ** [detect_qrs]: the two levels and the threshold *)

Section Levels.
Context `{Float}.
Variable cfg : Config.

Lemma run_noise_level (cs : list (Z * num)) (st : Detector) :
  indices_with Noise (verdicts cfg st cs) cs = [] →
  noise_peak_value (fold_left (detect_qrs_step cfg) cs st) = noise_peak_value st.
Proof.
  revert st. induction cs as [|c cs IH]; intros st; simpl; [done|].
  destruct (verdict_of cfg st c) eqn:Hv; simpl; [|done|].
  - intros Hnone. rewrite (IH _ Hnone). by rewrite (step_qrs cfg st c Hv).
  - intros Hnone. rewrite (IH _ Hnone). by rewrite (step_skipped cfg st c Hv).
Qed.

Lemma run_signal_level (cs : list (Z * num)) (st : Detector) :
  indices_with Qrs (verdicts cfg st cs) cs = [] →
  signal_peak_value (fold_left (detect_qrs_step cfg) cs st) = signal_peak_value st.
Proof.
  revert st. induction cs as [|c cs IH]; intros st; simpl; [done|].
  destruct (verdict_of cfg st c) eqn:Hv; simpl; [done| |].
  - intros Hnone. rewrite (IH _ Hnone). by rewrite (step_noise cfg st c Hv).
  - intros Hnone. rewrite (IH _ Hnone). by rewrite (step_skipped cfg st c Hv).
Qed.

Lemma step_consistent (st : Detector) (c : Z * num) :
  threshold_consistent cfg st → threshold_consistent cfg (detect_qrs_step cfg st c).
Proof.
  intros Hst. destruct (verdict_of cfg st c) eqn:Hv.
  - by rewrite (step_qrs cfg st c Hv).
  - by rewrite (step_noise cfg st c Hv).
  - by rewrite (step_skipped cfg st c Hv).
Qed.

Lemma step_eligible_consistent (st : Detector) (c : Z * num) :
  eligible cfg st c.1 = true → threshold_consistent cfg (detect_qrs_step cfg st c).
Proof.
  intros He. destruct c as [i v]. simpl in He.
  unfold detect_qrs_step. rewrite He.
  by destruct (fgt v (threshold_value st)).
Qed.

Lemma run_consistent (cs : list (Z * num)) (st : Detector) :
  threshold_consistent cfg st →
  threshold_consistent cfg (fold_left (detect_qrs_step cfg) cs st).
Proof.
  revert st. induction cs as [|c cs IH]; intros st Hst; simpl; [done|].
  by apply IH, step_consistent.
Qed.

End Levels.

(** X6.  A level moves only when its list grows: a run that records no
    noise index leaves [noise_peak_value] as it was, and a run that accepts
    no QRS leaves [signal_peak_value] as it was. *)
Theorem levels_change_only_with_outputs `{Float} (cfg : Config) (st : Detector)
    (idxs : list Z) (vals : list num) :
  (noise_peaks_indices (detect_qrs cfg st idxs vals) = noise_peaks_indices st →
   noise_peak_value (detect_qrs cfg st idxs vals) = noise_peak_value st)
  ∧ (qrs_peaks_indices (detect_qrs cfg st idxs vals) = qrs_peaks_indices st →
     signal_peak_value (detect_qrs cfg st idxs vals) = signal_peak_value st).
Proof.
  destruct (run_outputs cfg (zip idxs vals) st) as [Hq Hn]. simpl in Hq, Hn.
  unfold detect_qrs. split.
  - rewrite Hn. intros Heq. apply run_noise_level.
    apply (app_inv_head (noise_peaks_indices st)). by rewrite app_nil_r.
  - rewrite Hq. intros Heq. apply run_signal_level.
    apply (app_inv_head (qrs_peaks_indices st)). by rewrite app_nil_r.
Qed.

Lemma levels_change_only_with_outputs_witness :
  noise_peaks_indices (detect_qrs default_config init [10; 20; 200]%Z [1; 1; 1]%Q)
  = noise_peaks_indices init
  ∧ noise_peak_value (detect_qrs default_config init [10; 20; 200]%Z [1; 1; 1]%Q)
    = noise_peak_value init.
Proof.
  split; [reflexivity|].
  exact (proj1 (levels_change_only_with_outputs default_config init
                  [10; 20; 200]%Z [1; 1; 1]%Q) eq_refl).
Defined.

(** X7.  After a run from the initial state over at least one candidate
    the threshold equals
    [noise_peak_value + signal_noise_diff_weight * (signal_peak_value - noise_peak_value)]
    of the final levels; and a run from any state in which this equation
    holds ends in one. *)
Theorem threshold_follows_levels `{Float} (cfg : Config) (st : Detector)
    (idxs : list Z) (vals : list num) :
  (idxs ≠ [] → vals ≠ [] →
   threshold_value (detect_qrs cfg init idxs vals)
   = fadd (noise_peak_value (detect_qrs cfg init idxs vals))
       (fmul (signal_noise_diff_weight cfg)
          (fsub (signal_peak_value (detect_qrs cfg init idxs vals))
                (noise_peak_value (detect_qrs cfg init idxs vals)))))
  ∧ (threshold_consistent cfg st →
     threshold_consistent cfg (detect_qrs cfg st idxs vals)).
Proof.
  split.
  - intros Hi Hv. destruct idxs as [|i idxs]; [done|].
    destruct vals as [|v vals]; [done|].
    unfold detect_qrs. simpl.
    apply (run_consistent cfg (zip idxs vals)).
    apply (step_eligible_consistent cfg init (i, v)). by apply eligible_no_qrs.
  - apply run_consistent.
Qed.

Lemma threshold_follows_levels_witness :
  [10; 200]%Z ≠ [] ∧ [1; 2]%Q ≠ []
  ∧ threshold_value (detect_qrs default_config init [10; 200]%Z [1; 2]%Q)
    = fadd (noise_peak_value (detect_qrs default_config init [10; 200]%Z [1; 2]%Q))
        (fmul (signal_noise_diff_weight default_config)
           (fsub (signal_peak_value (detect_qrs default_config init [10; 200]%Z [1; 2]%Q))
                 (noise_peak_value (detect_qrs default_config init [10; 200]%Z [1; 2]%Q)))).
Proof.
  assert ([10; 200]%Z ≠ []) as Hi by discriminate.
  assert ([1; 2]%Q ≠ []) as Hv by discriminate.
  split; [exact Hi|]. split; [exact Hv|].
  exact (proj1 (threshold_follows_levels default_config init [10; 200]%Z [1; 2]%Q) Hi Hv).
Defined.

(** ** [findpeaks]: spacing of the peaks and edge cases *)

Section PeakFinderMore.
Context `{Float}.

Lemma findpeaks_inr (data : list num) (spacing : nat) (limit : option num)
    (ind : list nat) :
  findpeaks data spacing limit = inr ind →
  ∃ d0 dl, head data = Some d0 ∧ last data = Some dl
           ∧ ind = spec_peaks data spacing limit.
Proof.
  intros Hrun. destruct data as [|d data]; [done|].
  destruct (nonempty_head_last (d :: data)) as (d0 & dl & Hd0 & Hdl); [done|].
  exists d0, dl. split; [done|]. split; [done|].
  rewrite (findpeaks_spec_peaks _ d0 dl spacing limit Hd0 Hdl) in Hrun.
  by simplify_eq.
Qed.

Lemma fgt_irrefl (a : num) : fgt a a = false.
Proof.
  destruct (fgt a a) eqn:Ha; [|done]. by rewrite (fgt_asym a a Ha) in Ha.
Qed.

Lemma filter_sublist_impl (f g : nat → bool) (l : list nat) :
  (∀ x, f x = true → g x = true) →
  List.filter f l `sublist_of` List.filter g l.
Proof.
  intros Hfg. induction l as [|x l IH]; simpl; [done|].
  destruct (f x) eqn:Hf.
  - rewrite (Hfg x Hf). by apply sublist_skip.
  - destruct (g x); [by apply sublist_cons | done].
Qed.

Lemma filter_seq_all (f : nat → bool) (n k : nat) :
  (∀ i, k ≤ i < k + n → f i = true) → List.filter f (seq k n) = seq k n.
Proof.
  revert k. induction n as [|n IH]; intros k Hall; simpl; [done|].
  rewrite (Hall k) by lia. f_equal. apply IH. intros i Hi. apply Hall. lia.
Qed.

End PeakFinderMore.

(** X8.  Two indices that [findpeaks] returns are more than [spacing]
    places apart. *)
Theorem findpeaks_peaks_spaced `{Float} (data : list num) (spacing : nat)
    (limit : option num) (ind : list nat) (i j : nat) :
  findpeaks data spacing limit = inr ind →
  i ∈ ind → j ∈ ind → i < j →
  i + spacing < j.
Proof.
  intros (d0 & dl & Hd0 & Hdl & ->)%findpeaks_inr Hi Hj Hlt.
  apply (elem_of_spec_peaks data d0 dl spacing limit i Hd0 Hdl) in Hi
    as (di & Hdi & Hwi & _).
  apply (elem_of_spec_peaks data d0 dl spacing limit j Hd0 Hdl) in Hj
    as (dj & Hdj & Hwj & _).
  destruct (decide (i + spacing < j)) as [|Hnear]; [done|]. exfalso.
  destruct (Hwi (j - i - 1) ltac:(lia)) as [_ Ha].
  destruct (Hwj (j - i - 1) ltac:(lia)) as [Hb _].
  replace (Z.of_nat i + (Z.of_nat (j - i - 1) + 1))%Z with (Z.of_nat j) in Ha by lia.
  replace (Z.of_nat j - (Z.of_nat (j - i - 1) + 1))%Z with (Z.of_nat i) in Hb by lia.
  rewrite (neighbour_inside _ _ _ _ _ Hdj) in Ha.
  rewrite (neighbour_inside _ _ _ _ _ Hdi) in Hb.
  rewrite (fgt_asym _ _ Ha) in Hb. done.
Qed.

Lemma findpeaks_peaks_spaced_witness :
  @findpeaks Q_Float [0; 1; 0; 5; 0; 0; 0]%Q 1 (Some 0%Q) = inr [1; 3]
  ∧ 1 + 1 < 3.
Proof.
  split; [reflexivity|].
  apply (@findpeaks_peaks_spaced Q_Float [0; 1; 0; 5; 0; 0; 0]%Q 1 (Some 0%Q)
           [1; 3] 1 3 eq_refl); [| |lia].
  - apply list_elem_of_here.
  - apply list_elem_of_further, list_elem_of_here.
Defined.

(** X9.  Widening the search makes it stricter: the peaks found with a
    spacing and a limit are a subsequence of those found with any smaller
    spacing, with the same limit or with none. *)
Theorem findpeaks_monotone `{Float} (data : list num) (spacing spacing' : nat)
    (limit : option num) (ind : list nat) :
  spacing' ≤ spacing →
  findpeaks data spacing limit = inr ind →
  ∃ ind' ind'',
    findpeaks data spacing' limit = inr ind'
    ∧ findpeaks data spacing' None = inr ind''
    ∧ ind `sublist_of` ind' ∧ ind' `sublist_of` ind''.
Proof.
  intros Hle (d0 & dl & Hd0 & Hdl & ->)%findpeaks_inr.
  exists (spec_peaks data spacing' limit), (spec_peaks data spacing' None).
  split; [by eapply findpeaks_spec_peaks|]. split; [by eapply findpeaks_spec_peaks|].
  unfold spec_peaks. rewrite Hd0, Hdl.
  split; apply filter_sublist_impl; intros i [Hm Hl]%andb_true_iff;
    apply andb_true_iff; split; try done.
  apply strict_local_max_true in Hm as (di & Hdi & Hwin).
  apply strict_local_max_true. exists di. split; [done|].
  intros s Hs. apply Hwin. lia.
Qed.

Lemma findpeaks_monotone_witness :
  1 ≤ 3
  ∧ ∃ ind' ind'',
      @findpeaks Q_Float [0; 1; 0; 5; 0; 0; 0]%Q 1 (Some 0%Q) = inr ind'
      ∧ @findpeaks Q_Float [0; 1; 0; 5; 0; 0; 0]%Q 1 None = inr ind''
      ∧ [3] `sublist_of` ind' ∧ ind' `sublist_of` ind''.
Proof.
  assert (1 ≤ 3) as Hle by lia.
  split; [exact Hle|].
  exact (@findpeaks_monotone Q_Float [0; 1; 0; 5; 0; 0; 0]%Q 3 1 (Some 0%Q) [3]
           Hle eq_refl).
Defined.

(** X10.  With spacing 0 the loop does not run and the slice [x[-0:]] is the
    whole array, which the data then overwrites: on a non-empty sequence
    every index is returned, or every index whose value exceeds the limit
    when one is given. *)
Theorem findpeaks_spacing_zero `{Float} (data : list num) (limit : option num) :
  data ≠ [] →
  findpeaks data 0 None = inr (seq 0 (length data))
  ∧ findpeaks data 0 limit
    = inr (List.filter (above_limit data limit) (seq 0 (length data))).
Proof.
  intros Hne. destruct (nonempty_head_last data Hne) as (d0 & dl & Hd0 & Hdl).
  rewrite !(findpeaks_spec_peaks data d0 dl 0 _ Hd0 Hdl).
  unfold spec_peaks. rewrite Hd0, Hdl.
  assert (∀ i, i < length data → strict_local_max data d0 dl 0 i = true) as Hall.
  { intros i Hi. unfold strict_local_max.
    by destruct (lookup_lt_is_Some_2 data i Hi) as [di ->]. }
  split; f_equal.
  - apply filter_seq_all. intros i Hi. rewrite Hall by lia. done.
  - apply filter_ext_in. intros i Hi%in_seq. rewrite Hall by lia. done.
Qed.

Lemma findpeaks_spacing_zero_witness :
  [2; 1; 1; 3]%Q ≠ []
  ∧ @findpeaks Q_Float [2; 1; 1; 3]%Q 0 None = inr [0; 1; 2; 3].
Proof.
  assert ([2; 1; 1; 3]%Q ≠ []) as Hne by discriminate.
  split; [exact Hne|].
  exact (proj1 (@findpeaks_spacing_zero Q_Float [2; 1; 1; 3]%Q None Hne)).
Defined.

(** X11.  A constant sequence of two samples or more has no peak, for any
    spacing of at least 1 and any limit: each sample has an equal
    neighbour, and the comparison is strict. *)
Theorem findpeaks_constant_no_peaks `{Float} (c : num) (n spacing : nat)
    (limit : option num) :
  2 ≤ n → 1 ≤ spacing →
  findpeaks (replicate n c) spacing limit = inr [].
Proof.
  intros Hn Hs.
  destruct (nonempty_head_last (replicate n c)) as (d0 & dl & Hd0 & Hdl).
  { destruct n; [lia|done]. }
  rewrite (findpeaks_spec_peaks _ d0 dl spacing limit Hd0 Hdl). f_equal.
  apply elem_of_nil_inv. intros i Hi.
  apply (elem_of_spec_peaks _ d0 dl spacing limit i Hd0 Hdl) in Hi
    as (di & Hdi & Hwin & _).
  apply lookup_replicate in Hdi as [-> Hi].
  destruct (Hwin 0 ltac:(lia)) as [Hb Ha].
  destruct (decide (i = 0)) as [->|Hpos].
  - replace (Z.of_nat 0 + (Z.of_nat 0 + 1))%Z with (Z.of_nat 1) in Ha by lia.
    rewrite (neighbour_inside _ _ _ c 1) in Ha by (apply lookup_replicate_2; lia).
    by rewrite fgt_irrefl in Ha.
  - replace (Z.of_nat i - (Z.of_nat 0 + 1))%Z with (Z.of_nat (i - 1)) in Hb by lia.
    rewrite (neighbour_inside _ _ _ c (i - 1)) in Hb by (apply lookup_replicate_2; lia).
    by rewrite fgt_irrefl in Hb.
Qed.

Lemma findpeaks_constant_no_peaks_witness :
  2 ≤ 4 ∧ 1 ≤ 2
  ∧ @findpeaks Q_Float (replicate 4 0%Q) 2 (Some (35 # 100)%Q) = inr [].
Proof.
  assert (2 ≤ 4) as Hn by lia. assert (1 ≤ 2) as Hs by lia.
  split; [exact Hn|]. split; [exact Hs|].
  exact (@findpeaks_constant_no_peaks Q_Float 0%Q 4 2 (Some (35 # 100)%Q) Hn Hs).
Defined.

(** ** [detect_peaks]: the stages and what they hand to the classifier *)

Section PipelineFacts.
Context `{Float}.
Variable butter : nat → num → num → result (list num * list num).
Variable lfilter : list num → list num → list num → result (list num).

(** What [findpeaks] and the value lookup returned in a successful run. *)
Lemma condition_peaks (cfg : Config) (filtered : list num) (p : Peaks) :
  condition cfg filtered = inr p →
  findpeaks (integrated_signal p) (findpeaks_spacing cfg) (Some (findpeaks_limit cfg))
  = inr (detected_peaks_indices p)
  ∧ Forall2 (λ i v, integrated_signal p !! i = Some v)
      (detected_peaks_indices p) (detected_peaks_values p).
Proof.
  unfold condition.
  destruct (convolve (square (ediff1d filtered)) (ones (integration_window cfg)))
    as [e|integrated]; [done|].
  destruct (findpeaks integrated (findpeaks_spacing cfg) (Some (findpeaks_limit cfg)))
    as [e|ind] eqn:Hfind; [done|].
  unfold take_at. destruct (mapM (λ i, integrated !! i) ind) as [vals|] eqn:Hm; [|done].
  intros [= <-]. simpl. split; [done|]. by apply mapM_Some_1.
Qed.

Lemma detect_peaks_inr (cfg : Config) (ecg_measurements : list num) (p : Peaks) :
  detect_peaks butter lfilter cfg ecg_measurements = inr p →
  condition cfg (filtered_signal p) = inr p.
Proof.
  unfold detect_peaks.
  destruct (bandpass_filter _ _ _ _ _ _ _) as [e|filtered]; [done|].
  intros Hc. by destruct (condition_inr cfg filtered p Hc) as [-> _].
Qed.

(** Each detected peak with its value, above the limit. *)
Lemma detected_peak_above_limit (cfg : Config) (filtered : list num) (p : Peaks)
    (i : nat) :
  condition cfg filtered = inr p → i ∈ detected_peaks_indices p →
  ∃ v, integrated_signal p !! i = Some v ∧ fgt v (findpeaks_limit cfg) = true.
Proof.
  intros [Hfind _]%condition_peaks Hi.
  apply findpeaks_inr in Hfind as (d0 & dl & Hd0 & Hdl & Hind).
  rewrite Hind in Hi.
  apply (elem_of_spec_peaks _ d0 dl _ _ i Hd0 Hdl) in Hi as (v & Hv & _ & Hlim).
  exists v. split; [done|]. by apply Hlim.
Qed.

Lemma condition_window_zero (cfg : Config) (filtered : list num) :
  integration_window cfg = 0 → condition cfg filtered = inl ValueError.
Proof.
  intros Hw. unfold condition. rewrite Hw. simpl.
  by destruct (square (ediff1d filtered)).
Qed.

Lemma condition_inl (cfg : Config) (filtered : list num) (e : exn) :
  condition cfg filtered = inl e →
  e = ValueError ∧ (length filtered < 2 ∨ integration_window cfg = 0).
Proof.
  intros He.
  destruct (decide (length filtered < 2)) as [Hshort|Hlong].
  { rewrite (condition_short cfg filtered Hshort) in He. simplify_eq. auto. }
  destruct (decide (integration_window cfg = 0)) as [Hw|Hw].
  { rewrite (condition_window_zero cfg filtered Hw) in He. simplify_eq. auto. }
  destruct (condition_total cfg filtered) as [p Hp]; [lia|lia|]. congruence.
Qed.

End PipelineFacts.

(** X13.  When [detect_peaks] succeeds, the peak indices it hands on are
    strictly ascending and more than [findpeaks_spacing] apart, each value
    is the integrated signal at its index, and each value is strictly
    greater than [findpeaks_limit]. *)
Theorem detect_peaks_candidates `{Float}
    (butter : nat → num → num → result (list num * list num))
    (lfilter : list num → list num → list num → result (list num))
    (cfg : Config) (ecg_measurements : list num) (p : Peaks) :
  detect_peaks butter lfilter cfg ecg_measurements = inr p →
  StronglySorted lt (detected_peaks_indices p)
  ∧ (∀ i j, i ∈ detected_peaks_indices p → j ∈ detected_peaks_indices p →
       i < j → i + findpeaks_spacing cfg < j)
  ∧ Forall2 (λ i v, integrated_signal p !! i = Some v)
      (detected_peaks_indices p) (detected_peaks_values p)
  ∧ Forall (λ v, fgt v (findpeaks_limit cfg) = true) (detected_peaks_values p).
Proof.
  intros Hc%detect_peaks_inr.
  destruct (condition_peaks cfg _ p Hc) as [Hfind Hvals].
  pose proof Hfind as (d0 & dl & Hd0 & Hdl & Hind)%findpeaks_inr.
  split; [rewrite Hind; apply spec_peaks_sorted|]. split; [|split; [done|]].
  - intros i j Hi Hj Hlt.
    destruct (decide (i + findpeaks_spacing cfg < j)) as [|Hnear]; [done|]. exfalso.
    rewrite Hind in Hi, Hj.
    apply (elem_of_spec_peaks _ d0 dl _ _ i Hd0 Hdl) in Hi as (di & Hdi & Hwi & _).
    apply (elem_of_spec_peaks _ d0 dl _ _ j Hd0 Hdl) in Hj as (dj & Hdj & Hwj & _).
    destruct (Hwi (j - i - 1) ltac:(lia)) as [_ Ha].
    destruct (Hwj (j - i - 1) ltac:(lia)) as [Hb _].
    replace (Z.of_nat i + (Z.of_nat (j - i - 1) + 1))%Z with (Z.of_nat j) in Ha by lia.
    replace (Z.of_nat j - (Z.of_nat (j - i - 1) + 1))%Z with (Z.of_nat i) in Hb by lia.
    rewrite (neighbour_inside _ _ _ _ _ Hdj) in Ha.
    rewrite (neighbour_inside _ _ _ _ _ Hdi) in Hb.
    rewrite (fgt_asym _ _ Ha) in Hb. done.
  - apply Forall_lookup_2. intros k v Hk.
    destruct (Forall2_lookup_r _ _ _ _ _ Hvals Hk) as (i & Hi & Hiv).
    destruct (detected_peak_above_limit cfg _ p i Hc) as (v' & Hv' & Hlim).
    { by eapply list_elem_of_lookup_2. }
    by simplify_eq.
Qed.

Lemma detect_peaks_candidates_witness :
  ∃ p, @detect_peaks Q_Float unit_butter unit_lfilter default_config pulse_signal
       = inr p
       ∧ detected_peaks_indices p = [14]
       ∧ Forall (λ v, Qgtb v (35 # 100) = true) (detected_peaks_values p).
Proof.
  destruct (@detect_peaks Q_Float unit_butter unit_lfilter default_config pulse_signal)
    as [e|p] eqn:Hrun; [by vm_compute in Hrun|].
  exists p. split; [done|].
  pose proof (@detect_peaks_candidates Q_Float unit_butter unit_lfilter
                default_config pulse_signal p Hrun) as (_ & _ & _ & Hlim).
  split; [|exact Hlim].
  vm_compute in Hrun. by simplify_eq.
Defined.

Lemma amplitude_column_inl `{Float} (ecg_data : ndarray) (e : exn) :
  well_formed ecg_data → amplitude_column ecg_data = inl e →
  e = IndexError ∧ ¬ has_second_column ecg_data.
Proof.
  destruct ecg_data as [v|vs|ncols rows]; simpl.
  { intros _ [= <-]. split; [done|]. by intros []. }
  { intros _ [= <-]. split; [done|]. by intros []. }
  intros Hwf. destruct (Nat.ltb_spec ncols 2) as [Hlt|Hge].
  { intros [= <-]. split; [done|lia]. }
  destruct (mapM (λ row : list num, row !! 1) rows) as [column|] eqn:Hm; [done|].
  exfalso. assert (is_Some (mapM (λ row : list num, row !! 1) rows)) as [c Hc].
  { apply mapM_is_Some_2. eapply Forall_impl; [exact Hwf|].
    intros row Hrow. simpl in *. apply lookup_lt_is_Some_2. lia. }
  congruence.
Qed.

Lemma amplitude_column_no_second `{Float} (ecg_data : ndarray) :
  ¬ has_second_column ecg_data → amplitude_column ecg_data = inl IndexError.
Proof.
  destruct ecg_data as [v|vs|ncols rows]; simpl; try done.
  intros Hno. destruct (Nat.ltb_spec ncols 2); [done|lia].
Qed.

(** X14.  [detect_peaks] on a loaded array fails in three ways only: with
    the index error of [ecg_data[:, 1]] when the array has fewer than two
    dimensions or fewer than two columns, and it always fails so then;
    with the error of the filter; or with the value error of [np.convolve]
    when the filtered signal has fewer than two samples or the integration
    window is 0.  The index lookups of [findpeaks] and of the peak values
    never fail. *)
Theorem detect_peaks_errors `{Float}
    (butter : nat → num → num → result (list num * list num))
    (lfilter : list num → list num → list num → result (list num))
    (cfg : Config) (ecg_data : ndarray) :
  well_formed ecg_data →
  (¬ has_second_column ecg_data →
   detect_peaks_of_array butter lfilter cfg ecg_data = inl IndexError)
  ∧ ∀ e, detect_peaks_of_array butter lfilter cfg ecg_data = inl e →
      (e = IndexError ∧ ¬ has_second_column ecg_data)
      ∨ ∃ ecg_measurements,
          amplitude_column ecg_data = inr ecg_measurements
          ∧ (bandpass_filter butter lfilter ecg_measurements (filter_lowcut cfg)
               (filter_highcut cfg) (signal_frequency cfg) (filter_order cfg) = inl e
             ∨ ∃ filtered,
                 bandpass_filter butter lfilter ecg_measurements (filter_lowcut cfg)
                   (filter_highcut cfg) (signal_frequency cfg) (filter_order cfg)
                 = inr filtered
                 ∧ e = ValueError
                 ∧ (length filtered < 2 ∨ integration_window cfg = 0)).
Proof.
  intros Hwf. split.
  - intros Hno. unfold detect_peaks_of_array.
    by rewrite (amplitude_column_no_second ecg_data Hno).
  - intros e. unfold detect_peaks_of_array.
    destruct (amplitude_column ecg_data) as [e'|ecg_measurements] eqn:Hcol.
    { intros [= ->]. left. by apply amplitude_column_inl. }
    intros Hrun. right. exists ecg_measurements. split; [done|].
    unfold detect_peaks in Hrun.
    destruct (bandpass_filter _ _ _ _ _ _ _) as [e'|filtered]; simpl in Hrun.
    { injection Hrun as ->. by left. }
    apply condition_inl in Hrun as [-> Hwhy]. right. by exists filtered.
Qed.

Lemma detect_peaks_errors_witness :
  @well_formed Q_Float (@Array1 Q_Float [1; 2; 3]%Q)
  ∧ @detect_peaks_of_array Q_Float unit_butter unit_lfilter default_config
      (@Array1 Q_Float [1; 2; 3]%Q) = inl IndexError
  ∧ @well_formed Q_Float (@Array2 Q_Float 2 [[0; 1]%Q])
  ∧ @detect_peaks_of_array Q_Float unit_butter unit_lfilter default_config
      (@Array2 Q_Float 2 [[0; 1]%Q]) = inl ValueError
  ∧ ∃ ecg_measurements,
      @amplitude_column Q_Float (@Array2 Q_Float 2 [[0; 1]%Q])
      = inr ecg_measurements.
Proof.
  assert (@well_formed Q_Float (@Array1 Q_Float [1; 2; 3]%Q)) as Hwf by exact I.
  assert (@well_formed Q_Float (@Array2 Q_Float 2 [[0; 1]%Q])) as Hwf2.
  { repeat constructor. }
  split; [exact Hwf|]. split.
  { apply (proj1 (@detect_peaks_errors Q_Float unit_butter unit_lfilter
                    default_config (@Array1 Q_Float [1; 2; 3]%Q) Hwf)).
    intros Hcol. exact Hcol. }
  split; [exact Hwf2|]. split; [reflexivity|].
  destruct (proj2 (@detect_peaks_errors Q_Float unit_butter unit_lfilter
                     default_config (@Array2 Q_Float 2 [[0; 1]%Q]) Hwf2)
              ValueError eq_refl)
    as [[Hne _]|(m & Hm & _)]; [discriminate Hne|].
  exists m. exact Hm.
Defined.

(** ** The whole detection flow *)

Section FacadeFacts.
Context `{Float}.
Variable cfg : Config.

Lemma run_outputs_sublist (idxs : list Z) (vals : list num) :
  qrs_peaks_indices (detect_qrs cfg init idxs vals) `sublist_of` idxs
  ∧ noise_peaks_indices (detect_qrs cfg init idxs vals) `sublist_of` idxs.
Proof.
  destruct (run_outputs cfg (zip idxs vals) init) as [Hq Hn]. simpl in Hq, Hn.
  unfold detect_qrs. rewrite Hq, Hn.
  split; (etrans; [apply indices_with_sublist | apply candidate_indices_sublist]).
Qed.

Lemma run_outputs_disjoint (idxs : list Z) (vals : list num) (q : Z) :
  NoDup idxs →
  q ∈ qrs_peaks_indices (detect_qrs cfg init idxs vals) →
  q ∉ noise_peaks_indices (detect_qrs cfg init idxs vals).
Proof.
  intros Hnd Hq Hn.
  assert (NoDup (candidate_indices idxs vals)) as Hc.
  { eapply sublist_NoDup; [exact Hnd | apply candidate_indices_sublist]. }
  rewrite <- (run_partition cfg idxs vals) in Hc.
  apply NoDup_app in Hc as (_ & Hdisj & _).
  apply (Hdisj q Hq). apply elem_of_app. by left.
Qed.

Lemma sorted_of_nat (ind : list nat) :
  StronglySorted lt ind → StronglySorted Z.lt (Z.of_nat <$> ind).
Proof. apply StronglySorted_fmap. intros x y Hxy. lia. Qed.

(** The first candidate of a run from the initial state, when its value
    exceeds 0.0, heads the QRS sequence. *)
Lemma first_candidate_heads_qrs (i : Z) (v : num) (idxs : list Z) (vals : list num) :
  fgt v f0 = true →
  head (qrs_peaks_indices (detect_qrs cfg init (i :: idxs) (v :: vals))) = Some i.
Proof.
  intros Hv. unfold detect_qrs. simpl.
  destruct (run_outputs cfg (zip idxs vals) (detect_qrs_step cfg init (i, v)))
    as [Hq _]. simpl in Hq. rewrite Hq.
  unfold detect_qrs_step. rewrite (eligible_no_qrs cfg init i eq_refl). simpl.
  by rewrite Hv.
Qed.

End FacadeFacts.

(** X15.  When the detection flow succeeds, the QRS and the noise indices it
    reports are strictly ascending and share no index, and each of them is
    the index of a detected peak of the integrated signal whose value
    exceeds [findpeaks_limit]. *)
Theorem detection_outputs_are_peaks `{Float}
    (butter : nat → num → num → result (list num * list num))
    (lfilter : list num → list num → list num → result (list num))
    (cfg : Config) (ecg_measurements : list num) (p : Peaks) (st : Detector) :
  QRSDetectorOffline butter lfilter cfg ecg_measurements = inr (p, st) →
  StronglySorted Z.lt (qrs_peaks_indices st)
  ∧ StronglySorted Z.lt (noise_peaks_indices st)
  ∧ (∀ q, q ∈ qrs_peaks_indices st → q ∉ noise_peaks_indices st)
  ∧ (∀ q, q ∈ qrs_peaks_indices st ∨ q ∈ noise_peaks_indices st →
       ∃ i v, q = Z.of_nat i ∧ i ∈ detected_peaks_indices p
              ∧ integrated_signal p !! i = Some v
              ∧ fgt v (findpeaks_limit cfg) = true).
Proof.
  unfold QRSDetectorOffline.
  destruct (detect_peaks butter lfilter cfg ecg_measurements) as [e|p'] eqn:Hp;
    [done|].
  intros [= -> <-]. apply detect_peaks_inr in Hp.
  destruct (condition_peaks cfg _ p Hp) as [Hfind _].
  pose proof Hfind as (d0 & dl & _ & _ & Hind)%findpeaks_inr.
  assert (StronglySorted Z.lt (Z.of_nat <$> detected_peaks_indices p)) as Hs.
  { apply sorted_of_nat. rewrite Hind. apply spec_peaks_sorted. }
  destruct (run_outputs_sublist cfg (Z.of_nat <$> detected_peaks_indices p)
              (detected_peaks_values p)) as [Hq Hn].
  split; [by eapply sublist_sorted_lt|]. split; [by eapply sublist_sorted_lt|].
  split.
  - intros q. apply run_outputs_disjoint. by apply sorted_lt_NoDup.
  - intros q Hin.
    assert (q ∈ Z.of_nat <$> detected_peaks_indices p) as Hcand.
    { destruct Hin as [Hin|Hin]; by eapply elem_of_sublist. }
    apply list_elem_of_fmap in Hcand as (i & -> & Hi).
    destruct (detected_peak_above_limit cfg _ p i Hp Hi) as (v & Hv & Hlim).
    by exists i, v.
Qed.

Lemma detection_outputs_are_peaks_witness :
  ∃ p st, @QRSDetectorOffline Q_Float unit_butter unit_lfilter default_config
            pulse_signal = inr (p, st)
          ∧ qrs_peaks_indices st = [14%Z]
          ∧ StronglySorted Z.lt (qrs_peaks_indices st).
Proof.
  destruct (@QRSDetectorOffline Q_Float unit_butter unit_lfilter default_config
              pulse_signal) as [e|[p st]] eqn:Hrun; [by vm_compute in Hrun|].
  exists p, st. split; [done|].
  pose proof (@detection_outputs_are_peaks Q_Float unit_butter unit_lfilter
                default_config pulse_signal p st Hrun) as (Hsorted & _).
  split; [|exact Hsorted].
  vm_compute in Hrun. by simplify_eq.
Defined.

(** X16.  When every value above [findpeaks_limit] is also above 0.0 (the
    limit is not negative), the first QRS index the detection flow reports
    is the first detected peak: the zero threshold of the initial state
    lets it through.  With no detected peak there is no QRS index. *)
Theorem detection_first_peak_is_qrs `{Float}
    (butter : nat → num → num → result (list num * list num))
    (lfilter : list num → list num → list num → result (list num))
    (cfg : Config) (ecg_measurements : list num) (p : Peaks) (st : Detector) :
  (∀ v, fgt v (findpeaks_limit cfg) = true → fgt v f0 = true) →
  QRSDetectorOffline butter lfilter cfg ecg_measurements = inr (p, st) →
  head (qrs_peaks_indices st) = Z.of_nat <$> head (detected_peaks_indices p).
Proof.
  intros Hlimit. unfold QRSDetectorOffline.
  destruct (detect_peaks butter lfilter cfg ecg_measurements) as [e|p'] eqn:Hp;
    [done|].
  intros [= -> <-]. apply detect_peaks_inr in Hp.
  destruct (condition_peaks cfg _ p Hp) as [_ Hvals].
  destruct (detected_peaks_indices p) as [|i ind] eqn:Hind.
  - by apply Forall2_nil_inv_l in Hvals as ->.
  - apply Forall2_cons_inv_l in Hvals as (v & vals & Hv & _ & ->).
    destruct (detected_peak_above_limit cfg _ p i Hp) as (v' & Hv' & Hlim).
    { rewrite Hind. apply list_elem_of_here. }
    assert (v' = v) as -> by congruence.
    simpl. by apply first_candidate_heads_qrs, Hlimit.
Qed.

Lemma detection_first_peak_is_qrs_witness :
  (∀ v, @fgt Q_Float v (findpeaks_limit default_config) = true
        → @fgt Q_Float v f0 = true)
  ∧ ∃ p st, @QRSDetectorOffline Q_Float unit_butter unit_lfilter default_config
              pulse_signal = inr (p, st)
            ∧ head (qrs_peaks_indices st) = Some 14%Z.
Proof.
  assert (∀ v, @fgt Q_Float v (findpeaks_limit default_config) = true
               → @fgt Q_Float v f0 = true) as Hlimit.
  { intros v Hv%Qgtb_lt. apply Qgtb_lt.
    eapply Qlt_trans; [|exact Hv]. reflexivity. }
  split; [exact Hlimit|].
  destruct (@QRSDetectorOffline Q_Float unit_butter unit_lfilter default_config
              pulse_signal) as [e|[p st]] eqn:Hrun; [by vm_compute in Hrun|].
  exists p, st. split; [done|].
  rewrite (@detection_first_peak_is_qrs Q_Float unit_butter unit_lfilter
             default_config pulse_signal p st Hlimit Hrun).
  vm_compute in Hrun. by simplify_eq.
Defined.

(** ** The first candidate *)

(** C6.  The classifier starts with both levels and the threshold at 0.0, and
    its candidates are the peaks [findpeaks] lets through, whose values
    exceed [findpeaks_limit]; with a limit that is not negative (every value
    above it is above 0.0; the limit is 0.35), the first candidate passes
    the guard and exceeds the zero threshold, so it is accepted as QRS and
    not recorded as noise, and it stays the first QRS index of the run.  In
    the detection flow the first detected peak is the first QRS index. *)
Theorem first_candidate_accepted `{Float}
    (butter : nat → num → num → result (list num * list num))
    (lfilter : list num → list num → list num → result (list num))
    (cfg : Config) :
  (∀ v, fgt v (findpeaks_limit cfg) = true → fgt v f0 = true) →
  (∀ i v idxs vals, fgt v (findpeaks_limit cfg) = true →
     eligible cfg init i = true
     ∧ verdict_of cfg init (i, v) = Qrs
     ∧ qrs_peaks_indices (detect_qrs_step cfg init (i, v)) = [i]
     ∧ noise_peaks_indices (detect_qrs_step cfg init (i, v)) = []
     ∧ head (qrs_peaks_indices (detect_qrs cfg init (i :: idxs) (v :: vals)))
       = Some i)
  ∧ (∀ ecg_measurements p st i rest,
       QRSDetectorOffline butter lfilter cfg ecg_measurements = inr (p, st) →
       detected_peaks_indices p = i :: rest →
       head (qrs_peaks_indices st) = Some (Z.of_nat i)
       ∧ Z.of_nat i ∉ noise_peaks_indices st).
Proof.
  intros Hlimit. split.
  - intros i v idxs vals Hv%Hlimit.
    assert (eligible cfg init i = true) as He by by apply eligible_no_qrs.
    assert (verdict_of cfg init (i, v) = Qrs) as Hq.
    { unfold verdict_of. simpl. rewrite He. simpl. by rewrite Hv. }
    split; [done|]. split; [done|].
    rewrite (step_qrs cfg init (i, v) Hq). simpl.
    split; [done|]. split; [done|]. by apply first_candidate_heads_qrs.
  - intros ecg_measurements p st i rest. unfold QRSDetectorOffline.
    destruct (detect_peaks butter lfilter cfg ecg_measurements) as [e|p'] eqn:Hp;
      [done|].
    intros [= -> <-] Hind. apply detect_peaks_inr in Hp.
    destruct (condition_peaks cfg _ p Hp) as [Hfind Hvals].
    pose proof Hfind as (d0 & dl & _ & _ & Hspec)%findpeaks_inr.
    assert (StronglySorted Z.lt (Z.of_nat <$> detected_peaks_indices p)) as Hs.
    { apply sorted_of_nat. rewrite Hspec. apply spec_peaks_sorted. }
    destruct (detected_peak_above_limit cfg _ p i Hp) as (v' & Hv' & Hlim).
    { rewrite Hind. apply list_elem_of_here. }
    assert (head (qrs_peaks_indices
                    (detect_qrs cfg init (Z.of_nat <$> detected_peaks_indices p)
                       (detected_peaks_values p))) = Some (Z.of_nat i)) as Hhead.
    { rewrite Hind in Hvals |- *.
      apply Forall2_cons_inv_l in Hvals as (v & vals & Hv & _ & ->).
      assert (v' = v) as -> by congruence.
      simpl. by apply first_candidate_heads_qrs, Hlimit. }
    split; [done|].
    apply run_outputs_disjoint; [by apply sorted_lt_NoDup|].
    by apply head_Some_elem_of.
Qed.

Lemma first_candidate_accepted_witness :
  (∀ v, @fgt Q_Float v (findpeaks_limit default_config) = true
        → @fgt Q_Float v f0 = true)
  ∧ @fgt Q_Float (1 # 2)%Q (findpeaks_limit default_config) = true
  ∧ qrs_peaks_indices (detect_qrs_step default_config init (7%Z, (1 # 2)%Q)) = [7%Z]
  ∧ ∃ p st, @QRSDetectorOffline Q_Float unit_butter unit_lfilter default_config
              pulse_signal = inr (p, st)
            ∧ detected_peaks_indices p = [14]
            ∧ head (qrs_peaks_indices st) = Some 14%Z
            ∧ 14%Z ∉ noise_peaks_indices st.
Proof.
  assert (∀ v, @fgt Q_Float v (findpeaks_limit default_config) = true
               → @fgt Q_Float v f0 = true) as Hlimit.
  { intros v Hv%Qgtb_lt. apply Qgtb_lt.
    eapply Qlt_trans; [|exact Hv]. reflexivity. }
  destruct (@first_candidate_accepted Q_Float unit_butter unit_lfilter
              default_config Hlimit) as [Hstep Hflow].
  split; [exact Hlimit|]. split; [reflexivity|]. split.
  { exact (proj1 (proj2 (proj2 (Hstep 7%Z (1 # 2)%Q [] [] eq_refl)))). }
  destruct (@QRSDetectorOffline Q_Float unit_butter unit_lfilter default_config
              pulse_signal) as [e|[p st]] eqn:Hrun; [by vm_compute in Hrun|].
  exists p, st. split; [done|].
  assert (detected_peaks_indices p = [14]) as Hind.
  { vm_compute in Hrun. by simplify_eq. }
  split; [exact Hind|].
  exact (Hflow pulse_signal p st 14 [] Hrun Hind).
Defined.
